(** * Login tracker: domain grouping, email validation, record store, sync merge

    A shallow embedding of the parts of the extension that carry its
    logic:
    - [getRootDomain] (src/utils/gmailExtractor.ts, src/background/background.ts),
    - [isValidEmail] (src/content/content.ts),
    - the record store operations (src/utils/storage.ts as bundled in
      syncService.ts, and the message handlers of background.ts),
    - [smartMerge] (src/utils/syncService.ts) and the merge of the Convex
      functions (convex/sync.ts),
    - [simpleHash] (src/utils/syncService.ts), [groupSubdomains],
      [getCanonicalDomain] and the Gmail helpers (src/utils/gmailExtractor.ts),
    - the validators of the popup and of the background script.

    JavaScript strings are modelled as [string]; the code under study only
    inspects ASCII characters (hostnames, and addresses that passed an
    ASCII-only pattern), so [toLowerCase] acts on the letters A-Z.
    Objects used as dictionaries are [gmap string _] (domain keys are
    taken not to name a property of [Object.prototype]); arrays are lists;
    numbers that hold times and counts are integers. *)

From Stdlib Require Import Ascii ZArith.
From stdpp Require Import gmap strings list fin_maps sorting.

Local Open Scope Z_scope.
Local Open Scope nat_scope.

(** ** JavaScript string primitives *)

Module Js.

(** [c.toLowerCase()] on one ASCII character. *)
Definition lower_char (c : ascii) : ascii :=
  let n := nat_of_ascii c in
  if (65 <=? n) && (n <=? 90) then ascii_of_nat (n + 32) else c.

(** [s.toLowerCase()] *)
Fixpoint toLowerCase (s : string) : string :=
  match s with
  | EmptyString => EmptyString
  | String c s' => String (lower_char c) (toLowerCase s')
  end.

(** [s.split(sep)] for a one-character separator: n separators give n+1
    pieces, and the empty string gives one empty piece. *)
Fixpoint split (sep : ascii) (s : string) : list string :=
  match s with
  | EmptyString => [EmptyString]
  | String c s' =>
      if Ascii.eqb c sep then EmptyString :: split sep s'
      else match split sep s' with
           | p :: ps => String c p :: ps
           | [] => [String c EmptyString]
           end
  end.

(** [parts.join(sep)] *)
Fixpoint join (sep : ascii) (parts : list string) : string :=
  match parts with
  | [] => EmptyString
  | [p] => p
  | p :: ps => p +:+ String sep (join sep ps)
  end.

(** [xs.slice(-k)]: the last [k] elements, the whole array when it is
    shorter. *)
Definition slice_last {A} (k : nat) (xs : list A) : list A :=
  drop (length xs - k) xs.

(** [xs.slice(0, k)] *)
Definition slice_to {A} (k : nat) (xs : list A) : list A := take k xs.

(** [s.startsWith(p)] *)
Fixpoint startsWith (p s : string) : bool :=
  match p, s with
  | EmptyString, _ => true
  | String a p', String b s' => Ascii.eqb a b && startsWith p' s'
  | String _ _, EmptyString => false
  end.

(** [s.includes(p)]: [p] occurs somewhere in [s]. *)
Fixpoint includes (p s : string) : bool :=
  startsWith p s ||
  match s with
  | EmptyString => false
  | String _ s' => includes p s'
  end.

(** [s] without its first [n] characters *)
Fixpoint drop_chars (n : nat) (s : string) : string :=
  match n, s with
  | O, _ => s
  | S n', String _ s' => drop_chars n' s'
  | S _, EmptyString => EmptyString
  end.

(** [s.replace(/^www\./, '')]: one leading [www.] is removed. *)
Definition strip_www (s : string) : string :=
  if startsWith "www." s then drop_chars 4 s else s.

(** [c] occurs in [s] *)
Fixpoint has_char (c : ascii) (s : string) : bool :=
  match s with
  | EmptyString => false
  | String d s' => Ascii.eqb d c || has_char c s'
  end.

(** [s.endsWith(suffix)] *)
Fixpoint endsWith (suffix s : string) : bool :=
  String.eqb s suffix ||
  match s with
  | EmptyString => false
  | String _ s' => endsWith suffix s'
  end.

(** [s.indexOf(c)] for one character: -1 when [c] does not occur. *)
Fixpoint indexOf (c : ascii) (s : string) : Z :=
  match s with
  | EmptyString => (-1)%Z
  | String d s' =>
      if Ascii.eqb d c then 0%Z
      else let i := indexOf c s' in if (i <? 0)%Z then (-1)%Z else (i + 1)%Z
  end.

(** [s.substring(0, n)] *)
Fixpoint substring0 (n : nat) (s : string) : string :=
  match n, s with
  | S n', String c s' => String c (substring0 n' s')
  | _, _ => EmptyString
  end.

(** [s.replace(/c/g, '')] for one character [c] *)
Fixpoint remove_char (c : ascii) (s : string) : string :=
  match s with
  | EmptyString => EmptyString
  | String d s' =>
      if Ascii.eqb d c then remove_char c s' else String d (remove_char c s')
  end.

End Js.

(** ** Regular expressions, as far as the patterns of the source need them

    [RegExp.prototype.test] only asks whether some substring belongs to
    the language of the pattern, so a pattern is a regular expression
    together with its two anchors, and matching is by derivatives. *)

Module Re.

Inductive re : Type :=
  | Void
  | Eps
  | Cls (p : ascii → bool)
  | Cat (a b : re)
  | Alt (a b : re)
  | Star (a : re).

Fixpoint nullable (r : re) : bool :=
  match r with
  | Void => false
  | Eps => true
  | Cls _ => false
  | Cat a b => nullable a && nullable b
  | Alt a b => nullable a || nullable b
  | Star _ => true
  end.

Fixpoint deriv (c : ascii) (r : re) : re :=
  match r with
  | Void | Eps => Void
  | Cls p => if p c then Eps else Void
  | Cat a b =>
      if nullable a then Alt (Cat (deriv c a) b) (deriv c b)
      else Cat (deriv c a) b
  | Alt a b => Alt (deriv c a) (deriv c b)
  | Star a => Cat (deriv c a) (Star a)
  end.

(** The whole of [s] belongs to the language of [r]. *)
Fixpoint matches (r : re) (s : string) : bool :=
  match s with
  | EmptyString => nullable r
  | String c s' => matches (deriv c r) s'
  end.

(** Character classes *)
Definition in_range (lo hi c : ascii) : bool :=
  (nat_of_ascii lo <=? nat_of_ascii c) && (nat_of_ascii c <=? nat_of_ascii hi).

Definition one_of (cs : string) (c : ascii) : bool := Js.has_char c cs.

Definition upper_char (c : ascii) : ascii :=
  let n := nat_of_ascii c in
  if (97 <=? n) && (n <=? 122) then ascii_of_nat (n - 32) else c.

(** A class under the [i] flag. *)
Definition icase (p : ascii → bool) (c : ascii) : bool :=
  p c || p (Js.lower_char c) || p (upper_char c).

(** [\d], [\w], [.] *)
Definition digit : ascii → bool := in_range "0" "9".
Definition word (c : ascii) : bool :=
  in_range "a" "z" c || in_range "A" "Z" c || digit c || Ascii.eqb c "_".
Definition dot (c : ascii) : bool :=
  negb (Ascii.eqb c "010" || Ascii.eqb c "013").
Definition anychar (c : ascii) : bool := true.

(** A literal string. *)
Fixpoint lit (s : string) : re :=
  match s with
  | EmptyString => Eps
  | String c s' => Cat (Cls (Ascii.eqb c)) (lit s')
  end.

(** [r+] and [r{n,}] *)
Definition plus (r : re) : re := Cat r (Star r).
Fixpoint at_least (n : nat) (r : re) : re :=
  match n with
  | O => Star r
  | S n' => Cat r (at_least n' r)
  end.

(** A pattern [/^body$/]; either anchor may be missing. *)
Record pattern : Type := Pattern {
  anchored_start : bool;
  body : re;
  anchored_end : bool
}.

Definition search (r : re) : pattern := Pattern false r false.
Definition whole (r : re) : pattern := Pattern true r true.
Definition at_end (r : re) : pattern := Pattern false r true.

Definition skip (anchored : bool) : re :=
  if anchored then Eps else Star (Cls anychar).

(** [pattern.test(s)] *)
Definition test (p : pattern) (s : string) : bool :=
  matches (Cat (skip (anchored_start p)) (Cat (body p) (skip (anchored_end p)))) s.

(** The language of a regular expression. *)
Inductive Matches : re → string → Prop :=
  | MEps : Matches Eps EmptyString
  | MCls p c : p c = true → Matches (Cls p) (String c EmptyString)
  | MCat a b s t : Matches a s → Matches b t → Matches (Cat a b) (s +:+ t)
  | MAltL a b s : Matches a s → Matches (Alt a b) s
  | MAltR a b s : Matches b s → Matches (Alt a b) s
  | MStar0 a : Matches (Star a) EmptyString
  | MStarS a s t : Matches a s → Matches (Star a) t → Matches (Star a) (s +:+ t).

End Re.

(** ** Domain normalizer *)

(** [DomainUtils.SEPARATE_TLDS] of gmailExtractor.ts (the source lists
    [com.vc] twice; a [Set] keeps one). *)
Definition SEPARATE_TLDS : list string :=
  [ "co.uk"; "co.jp"; "co.kr"; "com.au"; "co.nz"; "co.za"; "com.br"; "com.mx";
    "co.in"; "co.ca"; "com.sg"; "com.hk"; "co.th"; "com.tw"; "com.tr"; "com.ar";
    "com.co"; "com.pe"; "com.ve"; "com.ec"; "com.uy"; "com.py"; "com.bo"; "com.gt";
    "com.sv"; "com.hn"; "com.ni"; "com.cr"; "com.pa"; "com.do"; "com.pr"; "com.jm";
    "com.tt"; "com.bb"; "com.lc"; "com.vc"; "com.gd"; "com.ag"; "com.dm"; "com.kn";
    "com.ms"; "com.ai"; "com.vg"; "com.bm"; "com.ky"; "com.tc"; "com.fk" ].

(** [separateTlds] of background.ts *)
Definition separateTlds : list string :=
  [ "co.uk"; "co.jp"; "co.kr"; "com.au"; "co.nz"; "co.za"; "com.br"; "com.mx";
    "co.in"; "co.ca"; "com.sg"; "com.hk"; "co.th"; "com.tw"; "com.tr"; "com.ar" ].

(** The body shared by the two copies of [getRootDomain]; they differ in
    the suffix table only. *)
Definition getRootDomainWith (tlds : list string) (domain : string) : string :=
  if decide (domain = EmptyString) then domain
  else
    let cleanDomain := Js.strip_www (Js.toLowerCase domain) in
    let parts := Js.split "." cleanDomain in
    if decide (length parts ≤ 2) then cleanDomain
    else
      let potentialTld := Js.join "." (Js.slice_last 2 parts) in
      if bool_decide (potentialTld ∈ tlds)
      then Js.join "." (Js.slice_last 3 parts)
      else Js.join "." (Js.slice_last 2 parts).

Module DomainUtils.
(** [DomainUtils.getRootDomain], gmailExtractor.ts *)
Definition getRootDomain : string → string := getRootDomainWith SEPARATE_TLDS.
End DomainUtils.

(** [getRootDomain], background.ts *)
Definition getRootDomain : string → string := getRootDomainWith separateTlds.


(** ** Email validator (content.ts) *)

Module Content.
Import Re.

Definition alnum (c : ascii) : bool :=
  in_range "a" "z" c || in_range "A" "Z" c || in_range "0" "9" c.
Definition alpha (c : ascii) : bool :=
  in_range "a" "z" c || in_range "A" "Z" c.
Definition hex (c : ascii) : bool :=
  in_range "a" "f" c || in_range "0" "9" c.

(** [/^[a-zA-Z0-9._%+-]+@[a-zA-Z0-9.-]+\.[a-zA-Z]{2,}$/] *)
Definition emailRegex : pattern :=
  whole (Cat (plus (Cls (λ c, alnum c || one_of "._%+-" c)))
        (Cat (lit "@")
        (Cat (plus (Cls (λ c, alnum c || one_of ".-" c)))
        (Cat (lit ".") (at_least 2 (Cls alpha)))))).

Definition invalidPatterns : list pattern :=
  [ search (lit "noreply");
    search (lit "no-reply");
    search (lit "support");
    search (lit "admin");
    search (lit "test");
    search (lit "example");
    search (lit "placeholder");
    search (lit "your.email");
    (* /\+.*\+/ *)
    search (Cat (lit "+") (Cat (Star (Cls dot)) (lit "+")));
    (* /^\d{10,}$/ *)
    whole (at_least 10 (Cls digit));
    (* /^[a-f0-9]{32,}$/i *)
    whole (at_least 32 (Cls (icase hex)));
    (* /\.\w{10,}$/ *)
    at_end (Cat (lit ".") (at_least 10 (Cls word)));
    search (lit "token");
    search (lit "session");
    search (lit "auth");
    search (lit "key");
    search (lit "secret");
    search (lit "encrypted");
    search (lit "hash");
    search (lit "digest");
    search (lit "signature") ].

Definition validProviders : list pattern :=
  [ at_end (lit "@gmail.com");
    at_end (lit "@yahoo.com");
    at_end (lit "@outlook.com");
    at_end (lit "@hotmail.com");
    at_end (lit "@icloud.com");
    at_end (lit "@protonmail.com");
    at_end (lit "@mail.com");
    at_end (lit "@yandex.com");
    at_end (lit "@zoho.com");
    at_end (lit "@aol.com") ].

Definition suspiciousUsernamePatterns : list pattern :=
  [ (* /^[a-f0-9]{8,}$/i *)
    whole (at_least 8 (Cls (icase hex)));
    (* /^\d{6,}$/ *)
    whole (at_least 6 (Cls digit));
    (* /_{10,}/ *)
    search (at_least 10 (Cls (Ascii.eqb "_")));
    (* /\.{5,}/ *)
    search (at_least 5 (Cls (Ascii.eqb "."))) ].

(** [patterns.some(pattern => pattern.test(s))] *)
Definition some_test (patterns : list pattern) (s : string) : bool :=
  existsb (λ p, test p s) patterns.

Definition isValidEmail (email : string) : bool :=
  let lowerEmail := Js.toLowerCase email in
  if negb (test emailRegex email) then false
  else if some_test invalidPatterns lowerEmail then false
  else if some_test validProviders lowerEmail then true
  else
    match Js.split "@" email with
    | [username; domain] =>
        if (30 <? String.length username) || (String.length username <? 2)
        then false
        else if (50 <? String.length domain) || (String.length domain <? 4)
        then false
        else if some_test suspiciousUsernamePatterns username then false
        else true
    | _ => false
    end.

(** The fragments that [invalidPatterns] looks for as plain text. *)
Definition denylist_fragments : list string :=
  [ "noreply"; "no-reply"; "support"; "admin"; "test"; "example";
    "placeholder"; "your.email"; "token"; "session"; "auth"; "key";
    "secret"; "encrypted"; "hash"; "digest"; "signature" ].

End Content.


(** ** Record store *)

(** [EmailMapping] of storage.ts; [description] is the optional field the
    EDIT_EMAIL handler of background.ts writes. *)
Record EmailMapping : Type := mkEmailMapping {
  email : string;
  apiUrl : string;
  timestamp : Z;
  count : Z;
  description : option string
}.

Global Instance EmailMapping_eq_dec : EqDecision EmailMapping.
Proof. solve_decision. Defined.

Global Instance EmailMapping_inhabited : Inhabited EmailMapping :=
  populate (mkEmailMapping EmptyString EmptyString 0%Z 0%Z None).

(** [DomainMappings]: an object keyed by domain. *)
Abbreviation DomainMappings := (gmap string (list EmailMapping)).

(** [entry => entry.email === e] *)
Definition has_email (e : string) (entry : EmailMapping) : Prop :=
  entry.(email) = e.

Global Instance has_email_dec e entry : Decision (has_email e entry).
Proof. unfold has_email. apply _. Defined.

(** [xs.findIndex(P)], with [None] for -1, and [xs.find(P)]. *)
Definition findIndex {A} (P : A → Prop) `{∀ x, Decision (P x)}
    (xs : list A) : option nat :=
  fst <$> list_find P xs.

Definition find {A} (P : A → Prop) `{∀ x, Decision (P x)}
    (xs : list A) : option A :=
  snd <$> list_find P xs.

(** [if (!m[d]) { m[d] = []; }] *)
Definition ensure_domain (d : string) (m : DomainMappings) : DomainMappings :=
  match m !! d with
  | None => <[d := []]> m
  | Some _ => m
  end.

(** [xs.unshift(x); if (xs.length > cap) xs = xs.slice(0, cap);] *)
Definition unshift_capped (cap : nat) (x : EmailMapping)
    (xs : list EmailMapping) : list EmailMapping :=
  let xs' := x :: xs in
  if decide (cap < length xs') then Js.slice_to cap xs' else xs'.

(** The value kept under the key [emailMappings] of [chrome.storage.local]
    is the state; [get] hands out a copy, and only [set] changes what is
    kept.  Calls that fail inside the browser are outside the model. *)
Definition Storage (A : Type) : Type := DomainMappings → A * DomainMappings.

Definition storage_ret {A} (x : A) : Storage A := λ st, (x, st).
Definition storage_bind {A B} (m : Storage A) (k : A → Storage B) : Storage B :=
  λ st, let '(x, st') := m st in k x st'.

(** [chrome.storage.local.get(['emailMappings'])] followed by
    [result.emailMappings || {}] *)
Definition storage_get : Storage DomainMappings := λ st, (st, st).
(** [chrome.storage.local.set({ emailMappings: m })] *)
Definition storage_set (m : DomainMappings) : Storage unit := λ _, (tt, m).

Notation "'let*' x ':=' m 'in' k" := (storage_bind m (λ x, k))
  (at level 10, x name, m at level 100, k at level 200).
Notation "m ';;;' k" := (storage_bind m (λ _, k))
  (at level 100, k at level 200, right associativity).

(** The store an operation leaves behind, and its answer. *)
Definition exec {A} (m : Storage A) (st : DomainMappings) : DomainMappings := (m st).2.
Definition eval {A} (m : Storage A) (st : DomainMappings) : A := (m st).1.

(** *** storage.ts *)

Definition getEmailMappings : Storage DomainMappings := storage_get.

(** [saveEmailMapping]; [now] is the value of [Date.now()]. *)
Definition saveEmailMapping (now : Z) (domain e url : string) : Storage bool :=
  let* mappings := getEmailMappings in
  let mappings := ensure_domain domain mappings in
  let entries := mappings !!! domain in
  match findIndex (has_email e) entries with
  | Some existingIndex =>
      let entries :=
        alter (λ entry, mkEmailMapping entry.(email) url now
                          (entry.(count) + 1)%Z entry.(description))
              existingIndex entries in
      storage_set (<[domain := entries]> mappings) ;;;
      storage_ret true
  | None =>
      let entries := unshift_capped 5 (mkEmailMapping e url now 1%Z None) entries in
      storage_set (<[domain := entries]> mappings) ;;;
      storage_ret true
  end.

Definition clearAllMappings : Storage bool :=
  storage_set ∅ ;;; storage_ret true.

Definition clearDomainMappings (domain : string) : Storage bool :=
  let* mappings := getEmailMappings in
  storage_set (delete domain mappings) ;;;
  storage_ret true.

Record DomainStats : Type := mkDomainStats {
  domain_name : string;
  emailCount : nat;
  domainLogins : Z
}.

Record StorageStats : Type := mkStorageStats {
  totalDomains : nat;
  totalEmails : nat;
  totalLogins : Z;
  domains : list DomainStats
}.

(** [entries.reduce((sum, entry) => sum + entry.count, 0)] *)
Definition sum_counts (entries : list EmailMapping) : Z :=
  foldl (λ sum entry, (sum + entry.(count))%Z) 0%Z entries.

(** The body of the [for (const domain in mappings)] loop of
    [getStorageStats]. *)
Definition stats_step (stats : StorageStats)
    (kv : string * list EmailMapping) : StorageStats :=
  let '(domain, entries) := kv in
  let domainData :=
    mkDomainStats domain (length entries) (sum_counts entries) in
  mkStorageStats stats.(totalDomains)
    (stats.(totalEmails) + domainData.(emailCount))
    (stats.(totalLogins) + domainData.(domainLogins))%Z
    (stats.(domains) ++ [domainData]).

(** [getStorageStats]; the keys are visited in the order of
    [map_to_list], which only decides the order of [domains]. *)
Definition getStorageStats : Storage StorageStats :=
  let* mappings := getEmailMappings in
  let stats := mkStorageStats (length (map_to_list mappings).*1) 0 0%Z [] in
  storage_ret (foldl stats_step stats (map_to_list mappings)).

(** *** background.ts *)

(** What a handler passes to [sendResponse]. *)
Record Response : Type := mkResponse {
  success : bool;
  error : option string
}.

Definition ok : Response := mkResponse true None.
Definition failed (msg : string) : Response := mkResponse false (Some msg).

(** [storeEmailMapping]: a new address is written back; for a known one
    the entry of the copy in hand is changed and no [set] follows. *)
Definition storeEmailMapping (now : Z) (domain e url : string) : Storage unit :=
  let* storage := storage_get in
  let storage := ensure_domain domain storage in
  let entries := storage !!! domain in
  match findIndex (has_email e) entries with
  | None =>
      let entries := unshift_capped 10 (mkEmailMapping e url now 1%Z None) entries in
      storage_set (<[domain := entries]> storage)
  | Some existingIndex =>
      let entries :=
        alter (λ entry, mkEmailMapping entry.(email) entry.(apiUrl) now
                          (entry.(count) + 1)%Z entry.(description))
              existingIndex entries in
      let _ := <[domain := entries]> storage in
      storage_ret tt
  end.

(** The handlers of [chrome.runtime.onMessage]. *)

Definition CLEAR_MAPPINGS : Storage Response :=
  storage_set ∅ ;;; storage_ret ok.

Definition LOGIN_DETECTED (e website : string) (ts : Z) (url : string)
    : Storage Response :=
  let* mappings := storage_get in
  let mappings := ensure_domain website mappings in
  let entries := mappings !!! website in
  match findIndex (has_email e) entries with
  | None =>
      let entries := unshift_capped 10 (mkEmailMapping e url ts 1%Z None) entries in
      storage_set (<[website := entries]> mappings) ;;;
      storage_ret ok
  | Some existingIndex =>
      let entries :=
        alter (λ entry, mkEmailMapping entry.(email) entry.(apiUrl) ts
                          (entry.(count) + 1)%Z entry.(description))
              existingIndex entries in
      storage_set (<[website := entries]> mappings) ;;;
      storage_ret ok
  end.

Definition ADD_EMAIL (now : Z) (domain e : string) : Storage Response :=
  let* mappings := storage_get in
  let mappings := ensure_domain domain mappings in
  let entries := mappings !!! domain in
  match findIndex (has_email e) entries with
  | None =>
      let entries :=
        unshift_capped 10
          (mkEmailMapping e ("manual://" +:+ domain) now 1%Z None) entries in
      storage_set (<[domain := entries]> mappings) ;;;
      storage_ret ok
  | Some _ =>
      storage_ret (failed "Email already exists for this domain")
  end.

Definition DELETE_EMAIL (domain e : string) : Storage Response :=
  let* mappings := storage_get in
  match mappings !! domain with
  | Some entries =>
      let entries := filter (λ entry, entry.(email) ≠ e) entries in
      let mappings := <[domain := entries]> mappings in
      let mappings :=
        if decide (length entries = 0) then delete domain mappings
        else mappings in
      storage_set mappings ;;;
      storage_ret ok
  | None => storage_ret (failed "Domain not found")
  end.

Definition DELETE_DOMAIN (domain : string) : Storage Response :=
  let* mappings := storage_get in
  match mappings !! domain with
  | Some _ =>
      storage_set (delete domain mappings) ;;;
      storage_ret ok
  | None => storage_ret (failed "Domain not found")
  end.

Definition EDIT_DOMAIN (oldDomain newDomain : string) : Storage Response :=
  let* mappings := storage_get in
  match mappings !! oldDomain with
  | Some entries =>
      storage_set (delete oldDomain (<[newDomain := entries]> mappings)) ;;;
      storage_ret ok
  | None => storage_ret (failed "Domain not found")
  end.

Definition EDIT_EMAIL (now : Z) (domain oldEmail newEmail : string)
    (descr : option string) : Storage Response :=
  let* mappings := storage_get in
  match mappings !! domain with
  | Some entries =>
      match findIndex (has_email oldEmail) entries with
      | Some emailIndex =>
          let entries :=
            alter (λ entry, mkEmailMapping newEmail entry.(apiUrl) now
                              entry.(count)
                              (match descr with
                               | Some d => Some d
                               | None => entry.(description)
                               end))
                  emailIndex entries in
          storage_set (<[domain := entries]> mappings) ;;;
          storage_ret ok
      | None => storage_ret (failed "Email not found")
      end
  | None => storage_ret (failed "Domain not found")
  end.

(** ** Sync merge (syncService.ts) *)

Inductive MergeStrategy : Type := LOCAL_WINS | REMOTE_WINS | LATEST_WINS.

(** The body of the inner loop of [smartMerge]: one local record against
    the list built so far for its domain. *)
Definition merge_email (strategy : MergeStrategy)
    (merged_domain : list EmailMapping) (localEmail : EmailMapping)
    : list EmailMapping :=
  match list_find (has_email localEmail.(email)) merged_domain with
  | Some (existingIndex, remoteEmail) =>
      match strategy with
      | LOCAL_WINS => <[existingIndex := localEmail]> merged_domain
      | REMOTE_WINS => merged_domain
      | LATEST_WINS =>
          if decide (remoteEmail.(timestamp) < localEmail.(timestamp))%Z
          then <[existingIndex := localEmail]> merged_domain
          else merged_domain
      end
  | None => merged_domain ++ [localEmail]
  end.

(** [smartMerge]: the result starts as the remote object; each domain of
    the local object is visited once, so the order of
    [Object.entries(localData)] does not show in the result. *)
Definition smartMerge (localData remoteData : DomainMappings)
    (strategy : MergeStrategy) : DomainMappings :=
  map_fold (λ domain localEmails merged,
              let merged := ensure_domain domain merged in
              <[domain := foldl (merge_email strategy) (merged !!! domain) localEmails]>
                merged)
           remoteData localData.

(** The two loops of [updateLocalStorage], flattened: one call of
    [saveEmailMapping] per record, the [k]-th call reading the clock as
    [clock k]. *)
Fixpoint save_each (clock : nat → Z) (k : nat)
    (calls : list (string * EmailMapping)) : Storage unit :=
  match calls with
  | [] => storage_ret tt
  | (domain, entry) :: calls' =>
      saveEmailMapping (clock k) domain entry.(email) entry.(apiUrl) ;;;
      save_each clock (S k) calls'
  end.

(** [updateLocalStorage]: the local store is emptied and filled again
    from the merged object through [saveEmailMapping]. *)
Definition updateLocalStorage (clock : nat → Z) (mergedData : DomainMappings)
    : Storage unit :=
  storage_set ∅ ;;;
  save_each clock 0
    (map_to_list mergedData ≫= λ '(domain, emails), pair domain <$> emails).

(** ** Vocabulary of the properties *)

(** Within each list the addresses are pairwise distinct. *)
Definition unique_emails (st : DomainMappings) : Prop :=
  ∀ d entries, st !! d = Some entries → NoDup (email <$> entries).


(** Most recently touched first: time stamps never increase along the
    list. *)
Definition recent_first (entries : list EmailMapping) : Prop :=
  StronglySorted (λ a b, (b.(timestamp) ≤ a.(timestamp))%Z) entries.

(** What LATEST_WINS leaves as the record of address [e] after one more
    local record has been merged. *)
Definition latest_step (e : string) (cur : option EmailMapping)
    (localEmail : EmailMapping) : option EmailMapping :=
  if decide (localEmail.(email) = e) then
    match cur with
    | Some r =>
        if decide (r.(timestamp) < localEmail.(timestamp))%Z
        then Some localEmail else Some r
    | None => Some localEmail
    end
  else cur.

(** ** Sample data *)

(** A record as the operations create it. *)
Definition sample (e : string) (ts : Z) : EmailMapping :=
  mkEmailMapping e "https://example.com/oauth" ts 1%Z None.

Definition sample_local : DomainMappings :=
  {[ "example.com" := [sample "e1@x.com" 100; sample "e2@x.com" 70] ]}.

Definition sample_remote : DomainMappings :=
  {[ "example.com" := [sample "e1@x.com" 50] ]}.

(** A run of [saveEmailMapping] calls for one domain, each with the time
    of the call and the address seen. *)
Definition run_saves (calls : list (Z * string)) (st : DomainMappings)
    : DomainMappings :=
  foldl (λ st '(now, e),
           exec (saveEmailMapping now "example.com" e "https://example.com/oauth") st)
        st calls.

(** Five addresses seen one after the other. *)
Definition five_seen : DomainMappings :=
  run_saves [ (1, "a@x.com"); (2, "b@x.com"); (3, "c@x.com"); (4, "d@x.com");
              (5, "e@x.com") ]%Z ∅.

(** The same, after which the first and the fourth are seen again. *)
Definition five_seen_two_again : DomainMappings :=
  run_saves [ (6, "a@x.com"); (7, "d@x.com") ]%Z five_seen.

(** Addresses added by hand to one domain, one after the other. *)
Definition added (es : list string) : DomainMappings :=
  foldl (λ st e, exec (ADD_EMAIL 0 "example.com" e) st) ∅ es.





(** Five addresses seen on another device. *)
Definition five_remote : DomainMappings :=
  run_saves [ (1, "p@x.com"); (2, "q@x.com"); (3, "r@x.com"); (4, "s@x.com");
              (5, "t@x.com") ]%Z ∅.

(** ** Further operations of the store *)

(** [getEmailMappingsForDomain] (storage.ts) *)
Definition getEmailMappingsForDomain (domain : string)
    : Storage (list EmailMapping) :=
  let* mappings := getEmailMappings in
  storage_ret (default [] (mappings !! domain)).

(** The CHECK_NEW_ACCOUNT handler (background.ts); the answer is the
    field [isNew]. *)
Definition CHECK_NEW_ACCOUNT (domain e : string) : Storage bool :=
  let* mappings := storage_get in
  match mappings !! domain with
  | Some entries =>
      match find (has_email e) entries with
      | Some _ => storage_ret false
      | None => storage_ret true
      end
  | None => storage_ret true
  end.

(** No key holds an empty list. *)
Definition no_empty_lists (st : DomainMappings) : Prop :=
  ∀ d entries, st !! d = Some entries → entries ≠ [].

(** Sums over the whole store, as [getStorageStats] accumulates them. *)
Definition count_emails (kvs : list (string * list EmailMapping)) : nat :=
  sum_list_with (λ kv, length kv.2) kvs.

Definition count_logins (kvs : list (string * list EmailMapping)) : Z :=
  foldr (λ kv acc, (sum_counts kv.2 + acc)%Z) 0%Z kvs.

(** What a strategy leaves as the record of address [e] after one more
    local record has been merged. *)
Definition resolve_step (strategy : MergeStrategy) (e : string)
    (cur : option EmailMapping) (localEmail : EmailMapping)
    : option EmailMapping :=
  match strategy with
  | LATEST_WINS => latest_step e cur localEmail
  | LOCAL_WINS => if decide (localEmail.(email) = e) then Some localEmail else cur
  | REMOTE_WINS =>
      if decide (localEmail.(email) = e) then
        match cur with
        | Some r => Some r
        | None => Some localEmail
        end
      else cur
  end.

(** ** Browser fingerprint hash (syncService.ts) *)

(** [ToInt32]: a number as a signed 32-bit integer. *)
Definition toInt32 (z : Z) : Z :=
  let m := (z mod 2 ^ 32)%Z in
  if (m <? 2 ^ 31)%Z then m else (m - 2 ^ 32)%Z.

(** [x << k] *)
Definition shl32 (x : Z) (k : Z) : Z := toInt32 (toInt32 x * 2 ^ k).

(** [x & y] *)
Definition and32 (x y : Z) : Z := Z.land (toInt32 x) (toInt32 y).

(** [str.charCodeAt(i)] *)
Definition charCode (c : ascii) : Z := Z.of_nat (nat_of_ascii c).

(** The body of the loop of [simpleHash]. *)
Definition hash_step (hash : Z) (c : ascii) : Z :=
  let char := charCode c in
  let hash := (shl32 hash 5 - hash + char)%Z in
  and32 hash hash.

Fixpoint hash_loop (hash : Z) (str : string) : Z :=
  match str with
  | EmptyString => hash
  | String c str' => hash_loop (hash_step hash c) str'
  end.

(** [simpleHash] *)
Definition simpleHash (str : string) : Z := Z.abs (hash_loop 0 str).

(** The polynomial in 31 whose coefficients are the character codes,
    over the integers. *)
Fixpoint poly31 (acc : Z) (str : string) : Z :=
  match str with
  | EmptyString => acc
  | String c str' => poly31 (31 * acc + charCode c) str'
  end.

(** ** Grouping of hostnames (gmailExtractor.ts) *)

(** A [Map] with string keys: the entries in the order of insertion. *)
Module JsMap.

Definition has {V} (k : string) (m : list (string * V)) : bool :=
  bool_decide (k ∈ m.*1).

Fixpoint get {V} (k : string) (m : list (string * V)) : option V :=
  match m with
  | [] => None
  | (k', v) :: m' => if decide (k' = k) then Some v else get k m'
  end.

(** The value under [k] replaced by its image; used for a mutation of
    the array that [m.get(k)] returns. *)
Fixpoint update {V} (k : string) (f : V → V) (m : list (string * V))
    : list (string * V) :=
  match m with
  | [] => []
  | (k', v) :: m' =>
      if decide (k' = k) then (k', f v) :: m' else (k', v) :: update k f m'
  end.

(** [m.set(k, v)] *)
Definition set {V} (k : string) (v : V) (m : list (string * V))
    : list (string * V) :=
  if has k m then update k (λ _, v) m else m ++ [(k, v)].

End JsMap.

(** A stable sort by a numeric key, as [xs.sort((a, b) => key(a) - key(b))]. *)
Fixpoint insert_by {A} (key : A → nat) (x : A) (xs : list A) : list A :=
  match xs with
  | [] => [x]
  | y :: xs' =>
      if decide (key x ≤ key y) then x :: y :: xs' else y :: insert_by key x xs'
  end.

Definition sort_by {A} (key : A → nat) (xs : list A) : list A :=
  foldr (insert_by key) [] xs.

Module DomainGroups.

(** [DomainUtils.groupSubdomains] *)
Definition groupSubdomains (domains : list string)
    : list (string * list string) :=
  foldl (λ groups domain,
           let rootDomain := DomainUtils.getRootDomain domain in
           let groups :=
             if negb (JsMap.has rootDomain groups)
             then JsMap.set rootDomain [] groups else groups in
           JsMap.update rootDomain (λ members, members ++ [domain]) groups)
        [] domains.

(** [DomainUtils.getCanonicalDomain] *)
Definition getCanonicalDomain (domains : list string) : string :=
  if decide (length domains = 0) then EmptyString
  else
    let rootDomains :=
      filter (λ d, d = DomainUtils.getRootDomain d) domains in
    match rootDomains with
    | r :: _ => r
    | [] =>
        match sort_by String.length domains with
        | d :: _ => d
        | [] => EmptyString
        end
    end.

End DomainGroups.

(** A label of a hostname in lower case: no dot, no capital letter. *)
Definition label (p : string) : Prop :=
  Js.has_char "." p = false ∧ Js.toLowerCase p = p.

(** ** The other validators *)

(** Every character of [s] is in the class [p]. *)
Fixpoint all_chars (p : ascii → bool) (s : string) : bool :=
  match s with
  | EmptyString => true
  | String c s' => p c && all_chars p s'
  end.

(** A regular expression whose classes do not tell a capital letter from
    its lower-case form. *)
Fixpoint case_blind (r : Re.re) : Prop :=
  match r with
  | Re.Void | Re.Eps => True
  | Re.Cls p => ∀ c, p (Js.lower_char c) = p c
  | Re.Cat a b | Re.Alt a b => case_blind a ∧ case_blind b
  | Re.Star a => case_blind a
  end.

(** The classes of [emailRegex] of the content script, by name. *)
Definition local_char (c : ascii) : bool :=
  Content.alnum c || Re.one_of "._%+-" c.
Definition domain_char (c : ascii) : bool :=
  Content.alnum c || Re.one_of ".-" c.

(** The popup script (bundled in content.ts). *)
Module Popup.
Import Re.

(** [\s], as far as eight-bit characters go: tab, line feed, vertical
    tab, form feed, carriage return, space, no-break space. *)
Definition space (c : ascii) : bool :=
  in_range "009" "013" c || Ascii.eqb c " " || Ascii.eqb c "160".

(** [[^\s@]] *)
Definition not_space_at (c : ascii) : bool :=
  negb (space c || Ascii.eqb c "@").

(** [/^[^\s@]+@[^\s@]+\.[^\s@]+$/] *)
Definition emailRegex : pattern :=
  whole (Cat (plus (Cls not_space_at))
        (Cat (lit "@")
        (Cat (plus (Cls not_space_at))
        (Cat (lit ".") (plus (Cls not_space_at)))))).

Definition isValidEmail (email : string) : bool := test emailRegex email.

End Popup.

(** The background script. *)
Module Background.
Import Re.

(** [/your.email/]: the dot stands for any character but a line break. *)
Definition your_email : pattern :=
  search (Cat (lit "your") (Cat (Cls dot) (lit "email"))).

Definition invalidPatterns : list pattern :=
  [ search (lit "noreply");
    search (lit "no-reply");
    search (lit "support");
    search (lit "admin");
    search (lit "test");
    search (lit "example");
    search (lit "placeholder");
    your_email ].

Definition isValidEmail (email : string) : bool :=
  let isInvalid :=
    existsb (λ p, test p (Js.toLowerCase email)) invalidPatterns in
  negb isInvalid && Js.includes "@" email && (5 <? String.length email).

Definition isGmailAddress (email : string) : bool :=
  let gmailDomains := ["gmail.com"; "googlemail.com"] in
  existsb (λ domain, Js.endsWith ("@" +:+ domain) (Js.toLowerCase email))
    gmailDomains.

End Background.

(** gmailExtractor.ts *)
Module GmailExtractor.

Definition GMAIL_DOMAINS : list string :=
  [ "gmail.com"; "googlemail.com"; "gmail.co.uk"; "gmail.de"; "gmail.fr";
    "gmail.it"; "gmail.es"; "gmail.ca"; "gmail.com.au" ].

Definition isGmailAddress (email : string) : bool :=
  let emailLower := Js.toLowerCase email in
  existsb (λ domain, Js.endsWith ("@" +:+ domain) emailLower) GMAIL_DOMAINS.

(** The user name of [normalizeGmailAddress]: dots removed, then cut
    before the first [+] unless the name starts with it. *)
Definition cleanUsername (username : string) : string :=
  let normalizedUsername := Js.remove_char "." username in
  let plusIndex := Js.indexOf "+" normalizedUsername in
  if (0 <? plusIndex)%Z
  then Js.substring0 (Z.to_nat plusIndex) normalizedUsername
  else normalizedUsername.

(** The destructuring [[username, domain]] takes the first two pieces and
    leaves [domain] undefined when there is one piece only; [split] never
    returns an empty array. *)
Definition normalizeGmailAddress (email : string) : string :=
  if negb (isGmailAddress email) then email
  else
    match Js.split "@" (Js.toLowerCase email) with
    | username :: rest =>
        let domain := match rest with d :: _ => d | [] => "undefined" end in
        cleanUsername username +:+ "@" +:+ domain
    | [] => email
    end.

End GmailExtractor.

(** The merge of the Convex functions (convex/sync.ts). *)
Module Convex.

(** The body of the inner loop of [mergeMappings]. *)
Definition merge_local_email (merged_domain : list EmailMapping)
    (localEmail : EmailMapping) : list EmailMapping :=
  match list_find (has_email localEmail.(email)) merged_domain with
  | Some (existingIndex, remoteEmail) =>
      if decide (remoteEmail.(timestamp) < localEmail.(timestamp))%Z
      then <[existingIndex := localEmail]> merged_domain
      else merged_domain
  | None => merged_domain ++ [localEmail]
  end.

Definition mergeMappings (localMappings remoteMappings : DomainMappings)
    : DomainMappings :=
  map_fold (λ domain localEmails merged,
              let merged := ensure_domain domain merged in
              <[domain := foldl merge_local_email (merged !!! domain) localEmails]>
                merged)
           remoteMappings localMappings.

End Convex.

(** * Properties *)

(** ** Strings *)

Lemma append_cons c (s t : string) : String c s +:+ t = String c (s +:+ t).
Proof. reflexivity. Qed.

Lemma append_nil_l (s : string) : EmptyString +:+ s = s.
Proof. reflexivity. Qed.

Lemma append_nil_r (s : string) : s +:+ EmptyString = s.
Proof. induction s as [|c s IH]; [done | by rewrite append_cons, IH]. Qed.

Lemma append_assoc (s t u : string) : (s +:+ t) +:+ u = s +:+ (t +:+ u).
Proof. induction s as [|c s IH]; [done | by rewrite !append_cons, IH]. Qed.


(** ** The derivative matcher decides the language *)

Section re_correct.
Import Re.

Lemma nullable_Matches r : nullable r = true ↔ Matches r EmptyString.
Proof.
  split.
  - induction r as [| |p|a IHa b IHb|a IHa b IHb|a IHa]; simpl; intros H;
      try discriminate.
    + constructor.
    + apply andb_true_iff in H as [Ha Hb].
      change EmptyString with (EmptyString +:+ EmptyString).
      constructor; auto.
    + apply orb_true_iff in H as [H|H]; [apply MAltL|apply MAltR]; auto.
    + constructor.
  - intros H. remember EmptyString as s eqn:Hs.
    induction H as [|p c Hp|a b s t Ha IHa Hb IHb|a b s Ha IHa|a b s Hb IHb
                   |a|a s t Ha IHa Hs' IHs]; simpl; try done.
    + destruct s; [|discriminate]. rewrite append_nil_l in Hs.
      rewrite IHa, IHb; done.
    + rewrite IHa; done.
    + rewrite IHb by done. apply orb_true_r.
Qed.

Lemma deriv_complete r c s : Matches r (String c s) → Matches (deriv c r) s.
Proof.
  intros H. remember (String c s) as cs eqn:Hcs. revert s Hcs.
  induction H as [|p d Hp|a b s1 t Ha IHa Hb IHb|a b s1 Ha IHa|a b s1 Hb IHb
                 |a|a s1 t Ha IHa Hs' IHs]; intros s Hcs; simpl; try done.
  - injection Hcs as -> <-. rewrite Hp. constructor.
  - destruct s1 as [|c1 s1]; [rewrite append_nil_l in Hcs|rewrite append_cons in Hcs].
    + apply nullable_Matches in Ha. rewrite Ha. apply MAltR. auto.
    + injection Hcs as -> <-.
      destruct (nullable a); [apply MAltL|]; constructor; auto.
  - apply MAltL; auto.
  - apply MAltR; auto.
  - destruct s1 as [|c1 s1]; [rewrite append_nil_l in Hcs|rewrite append_cons in Hcs].
    + auto.
    + injection Hcs as -> <-. constructor; auto.
Qed.

Lemma deriv_sound r c s : Matches (deriv c r) s → Matches r (String c s).
Proof.
  revert s. induction r as [| |p|a IHa b IHb|a IHa b IHb|a IHa];
    simpl; intros s H.
  - inversion H.
  - inversion H.
  - destruct (p c) eqn:Hp; inversion H; subst. by constructor.
  - destruct (nullable a) eqn:Hn.
    + inversion H as [| | |? ? ? HL|? ? ? HR| |]; subst.
      * inversion HL as [| |? ? s1 t H1 H2| | | |]; subst.
        rewrite <- append_cons. constructor; auto.
      * rewrite <- (append_nil_l (String c s)).
        constructor; [by apply nullable_Matches | auto].
    + inversion H as [| |? ? s1 t H1 H2| | | |]; subst.
      rewrite <- append_cons. constructor; auto.
  - inversion H; subst; [apply MAltL|apply MAltR]; auto.
  - inversion H as [| |? ? s1 t H1 H2| | | |]; subst.
    rewrite <- append_cons. apply MStarS; auto.
Qed.

Lemma matches_spec r s : matches r s = true ↔ Matches r s.
Proof.
  revert r. induction s as [|c s IH]; intros r; simpl.
  - apply nullable_Matches.
  - rewrite IH. split; [apply deriv_sound | apply deriv_complete].
Qed.
End re_correct.

(** ** Strings: prefixes, occurrences, lower case *)

Lemma startsWith_spec p s :
  Js.startsWith p s = true ↔ ∃ post, s = p +:+ post.
Proof.
  revert s. induction p as [|a p IH]; intros s; simpl.
  - split; [intros _; by exists s | done].
  - destruct s as [|b s]; simpl.
    + split; [done | intros [post H]; discriminate].
    + rewrite andb_true_iff, IH. split.
      * intros [Hab [post ->]]. apply Ascii.eqb_eq in Hab as ->. by exists post.
      * intros [post H]. rewrite append_cons in H. injection H as -> ->.
        split; [apply Ascii.eqb_refl | by exists post].
Qed.

Lemma includes_spec p s :
  Js.includes p s = true ↔ ∃ pre post, s = pre +:+ p +:+ post.
Proof.
  induction s as [|c s IH].
  - simpl. rewrite orb_false_r, startsWith_spec. split.
    + intros [post H]. by exists EmptyString, post.
    + intros [pre [post H]]. destruct pre; [by exists post | discriminate].
  - cbn [Js.includes]. rewrite orb_true_iff, IH, startsWith_spec. split.
    + intros [[post H]|[pre [post H]]].
      * by exists EmptyString, post.
      * exists (String c pre), post. by rewrite H.
    + intros [pre [post H]]. destruct pre as [|d pre].
      * left. by exists post.
      * right. rewrite append_cons in H. injection H as -> ->. by exists pre, post.
Qed.

Lemma toLowerCase_app s t :
  Js.toLowerCase (s +:+ t) = Js.toLowerCase s +:+ Js.toLowerCase t.
Proof.
  induction s as [|c s IH]; [done|].
  rewrite append_cons. simpl. by rewrite IH.
Qed.

Lemma includes_app_r p s t :
  Js.includes p t = true → Js.includes p (s +:+ t) = true.
Proof.
  rewrite !includes_spec. intros [pre [post ->]].
  exists (s +:+ pre), post. by rewrite append_assoc.
Qed.

(** ** Searching for a literal *)

Lemma Matches_any s : Re.Matches (Re.Star (Re.Cls Re.anychar)) s.
Proof.
  induction s as [|c s IH]; [constructor|].
  rewrite <- (append_nil_l s), <- append_cons.
  apply Re.MStarS; [by constructor | done].
Qed.

Lemma Matches_lit p : Re.Matches (Re.lit p) p.
Proof.
  induction p as [|c p IH]; simpl; [constructor|].
  rewrite <- (append_nil_l p), <- append_cons.
  constructor; [constructor; apply Ascii.eqb_refl | done].
Qed.

Lemma test_search_lit p s :
  Js.includes p s = true → Re.test (Re.search (Re.lit p)) s = true.
Proof.
  rewrite includes_spec. intros [pre [post ->]].
  unfold Re.test. apply matches_spec. simpl.
  constructor; [apply Matches_any|].
  constructor; [apply Matches_lit | apply Matches_any].
Qed.

Lemma denylist_fragment_pattern frag :
  frag ∈ Content.denylist_fragments →
  In (Re.search (Re.lit frag)) Content.invalidPatterns.
Proof.
  unfold Content.denylist_fragments. intros H.
  repeat (apply elem_of_cons in H as [->|H];
          [unfold Content.invalidPatterns;
           repeat first [left; reflexivity | right]|]).
  by apply elem_of_nil in H.
Qed.

(** ** Claims about the email validator *)

(** C9: the validator rejects ["noreply@service.com"] and the address
    whose local part is 32 hexadecimal characters, and accepts
    ["jane.doe@gmail.com"]. *)
Theorem C9_validator_examples :
  Content.isValidEmail "noreply@service.com" = false ∧
  Content.isValidEmail "a1b2c3d4e5f6a1b2c3d4e5f6a1b2c3d4@x.com" = false ∧
  Content.isValidEmail "jane.doe@gmail.com" = true.
Proof. repeat split; vm_compute; reflexivity. Qed.

(** C10: the denylist is applied to the whole lower-cased address, so a
    fragment such as "auth", "key" or "test" anywhere in the address, in
    particular in its domain, makes the validator answer false. *)
Theorem C10_denylist_covers_domain (frag localPart domainPart : string) :
  frag ∈ Content.denylist_fragments →
  Js.includes frag (Js.toLowerCase domainPart) = true →
  Content.isValidEmail (localPart +:+ "@" +:+ domainPart) = false.
Proof.
  intros Hfrag Hinc. unfold Content.isValidEmail.
  destruct (Re.test Content.emailRegex _); [|done].
  cbn [negb].
  assert (Content.some_test Content.invalidPatterns
            (Js.toLowerCase (localPart +:+ "@" +:+ domainPart)) = true) as ->; [|done].
  unfold Content.some_test. apply existsb_exists.
  exists (Re.search (Re.lit frag)). split.
  - by apply denylist_fragment_pattern.
  - apply test_search_lit. rewrite !toLowerCase_app.
    by do 2 apply includes_app_r.
Qed.

Lemma C10_witness :
  Content.isValidEmail ("jane" +:+ "@" +:+ "keybank.com") = false.
Proof.
  apply (C10_denylist_covers_domain "key" "jane" "keybank.com").
  - apply (bool_decide_unpack _). vm_compute. exact I.
  - vm_compute. reflexivity.
Defined.

(** ** Splitting and joining *)

Lemma lower_char_idemp c : Js.lower_char (Js.lower_char c) = Js.lower_char c.
Proof. destruct c as [[] [] [] [] [] [] [] []]; reflexivity. Qed.

Lemma toLowerCase_idemp s :
  Js.toLowerCase (Js.toLowerCase s) = Js.toLowerCase s.
Proof.
  induction s as [|c s IH]; simpl; [done|]. by rewrite lower_char_idemp, IH.
Qed.

Lemma toLowerCase_length s : String.length (Js.toLowerCase s) = String.length s.
Proof. induction s as [|c s IH]; simpl; [done | by rewrite IH]. Qed.

Lemma append_length s t :
  String.length (s +:+ t) = String.length s + String.length t.
Proof.
  induction s as [|c s IH]; [done|]. rewrite append_cons. simpl. by rewrite IH.
Qed.

Lemma append_inj_l s s' t t' :
  String.length s = String.length s' → s +:+ t = s' +:+ t' → t = t'.
Proof.
  revert s'. induction s as [|c s IH]; intros [|c' s'] Hlen H; try done.
  rewrite !append_cons in H. injection H as _ H. simpl in Hlen. eauto.
Qed.

(** A suffix of a lower-case string is lower-case. *)
Lemma lower_suffix pre s :
  Js.toLowerCase (pre +:+ s) = pre +:+ s → Js.toLowerCase s = s.
Proof.
  rewrite toLowerCase_app. apply append_inj_l, toLowerCase_length.
Qed.

Lemma drop_chars_suffix n s : ∃ pre, s = pre +:+ Js.drop_chars n s.
Proof.
  revert s. induction n as [|n IH]; intros s.
  - by exists EmptyString.
  - destruct s as [|c s]; [by exists EmptyString|].
    destruct (IH s) as [pre H]. exists (String c pre). simpl.
    by rewrite append_cons, <- H.
Qed.

Lemma strip_www_suffix s : ∃ pre, s = pre +:+ Js.strip_www s.
Proof.
  unfold Js.strip_www. destruct (Js.startsWith _ s).
  - apply drop_chars_suffix.
  - by exists EmptyString.
Qed.

Lemma split_nonempty sep s : Js.split sep s ≠ [].
Proof.
  destruct s as [|c s]; simpl; [done|].
  destruct (Ascii.eqb c sep); [done|]. by destruct (Js.split sep s).
Qed.

Lemma split_sep_free sep s :
  Forall (λ p, Js.has_char sep p = false) (Js.split sep s).
Proof.
  induction s as [|c s IH]; simpl.
  - by repeat constructor.
  - destruct (Ascii.eqb c sep) eqn:Hc.
    + by constructor.
    + destruct (Js.split sep s) as [|p ps]; inversion IH; subst;
        constructor; simpl; rewrite ?Hc; auto.
Qed.

Lemma split_sep_free_one sep p :
  Js.has_char sep p = false → Js.split sep p = [p].
Proof.
  induction p as [|c p IH]; simpl; [done|].
  intros [Hc Hp]%orb_false_iff. rewrite Hc, IH; done.
Qed.

Lemma split_app_sep sep p rest :
  Js.has_char sep p = false →
  Js.split sep (p +:+ String sep rest) = p :: Js.split sep rest.
Proof.
  induction p as [|c p IH]; intros Hp.
  - rewrite append_nil_l. simpl. by rewrite Ascii.eqb_refl.
  - simpl in Hp. apply orb_false_iff in Hp as [Hc Hp].
    rewrite append_cons. simpl. rewrite Hc, IH; done.
Qed.

Lemma split_join sep ps :
  ps ≠ [] → Forall (λ p, Js.has_char sep p = false) ps →
  Js.split sep (Js.join sep ps) = ps.
Proof.
  induction ps as [|p ps IH]; [done|]. intros _ Hfree.
  inversion Hfree as [|? ? Hp Hps]; subst.
  destruct ps as [|q ps].
  - simpl. by apply split_sep_free_one.
  - change (Js.join sep (p :: q :: ps))
      with (p +:+ String sep (Js.join sep (q :: ps))).
    rewrite split_app_sep by done. by rewrite IH.
Qed.

Lemma join_split sep s : Js.join sep (Js.split sep s) = s.
Proof.
  induction s as [|c s IH]; simpl; [done|].
  destruct (Ascii.eqb_spec c sep) as [->|Hc].
  - pose proof (split_nonempty sep s) as Hne.
    destruct (Js.split sep s) as [|p ps]; [done|].
    simpl in *. by rewrite append_nil_l, IH.
  - pose proof (split_nonempty sep s) as Hne.
    destruct (Js.split sep s) as [|p ps]; [done|].
    destruct ps as [|q ps]; simpl in *.
    + by rewrite IH.
    + by rewrite append_cons, IH.
Qed.

Lemma join_drop_suffix sep n ps :
  ∃ pre, Js.join sep ps = pre +:+ Js.join sep (drop n ps).
Proof.
  revert ps. induction n as [|n IH]; intros ps.
  - by exists EmptyString.
  - destruct ps as [|p ps]; [by exists EmptyString|].
    destruct (IH ps) as [pre H]. rewrite skipn_cons.
    destruct ps as [|q ps].
    + exists p. rewrite drop_nil. simpl. by rewrite append_nil_r.
    + exists (p +:+ String sep pre).
      change (Js.join sep (p :: q :: ps))
        with (p +:+ String sep (Js.join sep (q :: ps))).
      by rewrite H, append_assoc, append_cons.
Qed.

Lemma slice_last_length {A} k (xs : list A) :
  k ≤ length xs → length (Js.slice_last k xs) = k.
Proof. intros H. unfold Js.slice_last. rewrite length_drop. lia. Qed.

Lemma slice_last_slice_last {A} k m (xs : list A) :
  k ≤ m → Js.slice_last k (Js.slice_last m xs) = Js.slice_last k xs.
Proof.
  intros H. unfold Js.slice_last. rewrite length_drop, drop_drop.
  f_equal. lia.
Qed.

(** ** Claims about the domain normalizer *)

(** The result is cut from the end of the cleaned hostname. *)
Lemma getRootDomainWith_clean_suffix tlds h :
  h ≠ EmptyString →
  ∃ pre, Js.strip_www (Js.toLowerCase h) = pre +:+ getRootDomainWith tlds h.
Proof.
  intros Hne. unfold getRootDomainWith. rewrite decide_False by done.
  generalize (Js.strip_www (Js.toLowerCase h)). intros clean.
  assert (∀ k, ∃ pre,
            clean = pre +:+ Js.join "." (Js.slice_last k (Js.split "." clean)))
    as Hsuf.
  { intros k. destruct (join_drop_suffix "." (length (Js.split "." clean) - k)
                          (Js.split "." clean)) as [pre H].
    exists pre. by rewrite join_split in H. }
  case_decide; [by exists EmptyString|].
  case_bool_decide; apply Hsuf.
Qed.

Lemma getRootDomainWith_lower_suffix tlds h :
  ∃ pre, Js.toLowerCase h = pre +:+ getRootDomainWith tlds h.
Proof.
  destruct (decide (h = EmptyString)) as [->|Hne]; [by exists EmptyString|].
  destruct (getRootDomainWith_clean_suffix tlds h Hne) as [pre2 H2].
  destruct (strip_www_suffix (Js.toLowerCase h)) as [pre1 H1].
  exists (pre1 +:+ pre2). by rewrite append_assoc, <- H2.
Qed.

Lemma getRootDomainWith_lower tlds h :
  Js.toLowerCase (getRootDomainWith tlds h) = getRootDomainWith tlds h.
Proof.
  destruct (getRootDomainWith_lower_suffix tlds h) as [pre H].
  apply (lower_suffix pre). rewrite <- H. apply toLowerCase_idemp.
Qed.

(** The normalizer on a lower-case string given by its labels, when no
    [www.] is in front. *)
Lemma getRootDomainWith_join tlds ps :
  ps ≠ [] → Forall (λ p, Js.has_char "." p = false) ps →
  Js.toLowerCase (Js.join "." ps) = Js.join "." ps →
  Js.startsWith "www." (Js.join "." ps) = false →
  getRootDomainWith tlds (Js.join "." ps) =
    if decide (length ps ≤ 2) then Js.join "." ps
    else if bool_decide (Js.join "." (Js.slice_last 2 ps) ∈ tlds)
         then Js.join "." (Js.slice_last 3 ps)
         else Js.join "." (Js.slice_last 2 ps).
Proof.
  intros Hne Hfree Hlow Hwww. unfold getRootDomainWith.
  case_decide as Hempty.
  - pose proof (split_join "." ps Hne Hfree) as Hsplit.
    rewrite Hempty in Hsplit. simpl in Hsplit. subst ps.
    rewrite decide_True; [done | simpl; lia].
  - rewrite Hlow. unfold Js.strip_www. rewrite Hwww.
    by rewrite split_join.
Qed.

(** C2, as the code has it: normalizing twice gives what normalizing once
    gives, for every hostname whose normal form does not itself begin
    with [www.] (one leading [www.] is removed per call).  This holds for
    any suffix table, hence for both copies of [getRootDomain]. *)
Theorem C2_getRootDomain_idempotent_without_www (tlds : list string) (h : string) :
  Js.startsWith "www." (getRootDomainWith tlds h) = false →
  getRootDomainWith tlds (getRootDomainWith tlds h) = getRootDomainWith tlds h.
Proof.
  intros Hwww.
  pose proof (getRootDomainWith_lower tlds h) as Hlow.
  revert Hwww Hlow. unfold getRootDomainWith at 1 2 3 5 6.
  case_decide as Hempty; [by subst|].
  set (clean := Js.strip_www (Js.toLowerCase h)).
  pose proof (split_nonempty "." clean) as Hne.
  pose proof (split_sep_free "." clean) as Hfree.
  pose proof (join_split "." clean) as Hjoin.
  set (parts := Js.split "." clean) in *.
  case_decide as Hlen.
  - intros Hwww Hlow. rewrite <- Hjoin in Hwww, Hlow |- *.
    rewrite getRootDomainWith_join by done. by rewrite decide_True.
  - assert (∀ k, 0 < k → Js.slice_last k parts ≠ []) as Hne'.
    { intros k Hk Hnil. apply (f_equal length) in Hnil.
      unfold Js.slice_last in Hnil. rewrite length_drop in Hnil.
      simpl in Hnil. lia. }
    assert (∀ k, Forall (λ p, Js.has_char "." p = false) (Js.slice_last k parts))
      as Hfree' by (intros k; by apply Forall_drop).
    case_bool_decide as Htld; intros Hwww Hlow.
    + rewrite getRootDomainWith_join by (auto with lia).
      rewrite slice_last_length by lia. rewrite decide_False by lia.
      rewrite !slice_last_slice_last by lia. by rewrite bool_decide_true.
    + rewrite getRootDomainWith_join by (auto with lia).
      rewrite slice_last_length by lia. by rewrite decide_True.
Qed.

Lemma C2_witness :
  getRootDomainWith separateTlds (getRootDomainWith separateTlds "www.login.Example.co.uk")
  = getRootDomainWith separateTlds "www.login.Example.co.uk".
Proof.
  apply (C2_getRootDomain_idempotent_without_www separateTlds "www.login.Example.co.uk").
  vm_compute. reflexivity.
Defined.

(** The side condition of C2 is exact: a normal form that begins with
    [www.] loses it in the second call. *)
Lemma getRootDomainWith_not_idempotent_www tlds h :
  Js.startsWith "www." (getRootDomainWith tlds h) = true →
  getRootDomainWith tlds (getRootDomainWith tlds h) ≠ getRootDomainWith tlds h.
Proof.
  intros Hwww Heq.
  pose proof (getRootDomainWith_lower tlds h) as Hlow.
  set (r := getRootDomainWith tlds h) in *.
  assert (r ≠ EmptyString) as Hne by (intros Hr; by rewrite Hr in Hwww).
  destruct (getRootDomainWith_clean_suffix tlds r Hne) as [pre Hsuf].
  rewrite Heq, Hlow in Hsuf. unfold Js.strip_www in Hsuf. rewrite Hwww in Hsuf.
  apply startsWith_spec in Hwww as [post Hpost].
  clearbody r. subst r.
  change (Js.drop_chars 4 ("www." +:+ post)) with post in Hsuf.
  apply (f_equal String.length) in Hsuf.
  rewrite !append_length in Hsuf. simpl in Hsuf. lia.
Qed.

(** C2 as stated fails: ["www.www.com"] normalizes to ["www.com"], which
    normalizes to ["com"], in both copies. *)
Lemma C2_counterexample :
  getRootDomain "www.www.com" = "www.com" ∧
  getRootDomain (getRootDomain "www.www.com") = "com" ∧
  getRootDomain (getRootDomain "www.www.com") ≠ getRootDomain "www.www.com" ∧
  DomainUtils.getRootDomain (DomainUtils.getRootDomain "www.www.com")
    ≠ DomainUtils.getRootDomain "www.www.com".
Proof. repeat split; vm_compute; congruence. Qed.

(** C8: the three sample hostnames, in both copies of the normalizer. *)
Theorem C8_getRootDomain_examples :
  DomainUtils.getRootDomain "login.example.co.uk" = "example.co.uk" ∧
  DomainUtils.getRootDomain "www.github.com" = "github.com" ∧
  DomainUtils.getRootDomain "a.b.c.d.com" = "d.com" ∧
  DomainUtils.getRootDomain "a.b.c.d.com" ≠ "c.d.com" ∧
  getRootDomain "login.example.co.uk" = "example.co.uk" ∧
  getRootDomain "www.github.com" = "github.com" ∧
  getRootDomain "a.b.c.d.com" = "d.com".
Proof. repeat split; vm_compute; congruence. Qed.

(** ** The store: helper facts *)

Lemma ensure_domain_lookup_total d (m : DomainMappings) :
  ensure_domain d m !!! d = default [] (m !! d).
Proof.
  unfold ensure_domain. destruct (m !! d) as [l|] eqn:H.
  - by rewrite lookup_total_alt, H.
  - by rewrite lookup_total_insert_eq.
Qed.

Lemma ensure_domain_lookup_ne d d' (m : DomainMappings) :
  d ≠ d' → ensure_domain d m !! d' = m !! d'.
Proof.
  intros Hne. unfold ensure_domain. destruct (m !! d); [done|].
  by rewrite lookup_insert_ne.
Qed.

Lemma insert_ensure_domain d l (m : DomainMappings) :
  <[d := l]> (ensure_domain d m) = <[d := l]> m.
Proof.
  unfold ensure_domain. destruct (m !! d); [done|]. apply insert_insert_eq.
Qed.

Section list_find.
Context {A : Type} (P : A → Prop) `{∀ x, Decision (P x)}.

Lemma list_find_insert_other (l : list A) i x y :
  l !! i = Some x → ¬ P x → ¬ P y →
  list_find P (<[i := y]> l) = list_find P l.
Proof.
  revert i. induction l as [|z l IH]; intros [|i] Hi Hx Hy; simplify_eq/=.
  - by rewrite !decide_False.
  - case_decide; [done|]. by rewrite (IH i).
Qed.

Lemma list_find_insert_found (l : list A) i x y :
  list_find P l = Some (i, x) → P y →
  list_find P (<[i := y]> l) = Some (i, y).
Proof.
  revert i. induction l as [|z l IH]; intros i Hfind Hy; [done|].
  simpl in Hfind. case_decide as Hz.
  - simplify_eq/=. by rewrite decide_True.
  - destruct (list_find P l) as [[j w]|] eqn:Hl; simplify_eq/=.
    rewrite decide_False by done. by rewrite (IH j).
Qed.

Lemma list_find_snoc_other (l : list A) y :
  ¬ P y → list_find P (l ++ [y]) = list_find P l.
Proof.
  intros Hy. induction l as [|z l IH]; simpl.
  - by rewrite decide_False.
  - case_decide; [done|]. by rewrite IH.
Qed.

Lemma list_find_snoc_new (l : list A) y :
  list_find P l = None → P y → list_find P (l ++ [y]) = Some (length l, y).
Proof.
  intros Hnone Hy. induction l as [|z l IH]; simpl in *.
  - by rewrite decide_True.
  - case_decide; [done|].
    destruct (list_find P l) as [[j w]|]; simplify_eq/=. by rewrite IH.
Qed.

Lemma find_Some_elem (l : list A) x : find P l = Some x → x ∈ l ∧ P x.
Proof.
  unfold find. destruct (list_find P l) as [[i y]|] eqn:Hl; intros; simplify_eq/=.
  apply list_find_Some in Hl as (Hi & HP & _).
  split; [by eapply list_elem_of_lookup_2 | done].
Qed.

Lemma find_None (l : list A) : find P l = None ↔ Forall (λ x, ¬ P x) l.
Proof.
  unfold find. rewrite fmap_None. apply list_find_None.
Qed.
End list_find.

(** ** Sync merge *)

(** One step of the inner loop, seen from one address. *)
Lemma merge_email_find e acc l :
  find (has_email e) (merge_email LATEST_WINS acc l)
  = latest_step e (find (has_email e) acc) l.
Proof.
  unfold merge_email, latest_step, find.
  destruct (decide (l.(email) = e)) as [He|He].
  - subst e.
    destruct (list_find (has_email l.(email)) acc) as [[i r]|] eqn:Hl; simpl.
    + destruct (decide (r.(timestamp) < l.(timestamp))%Z); [|by rewrite Hl].
      by erewrite list_find_insert_found.
    + by erewrite list_find_snoc_new.
  - destruct (list_find (has_email l.(email)) acc) as [[i r]|] eqn:Hl.
    + pose proof Hl as (Hi & Hr & _)%list_find_Some. unfold has_email in Hr.
      destruct (decide (r.(timestamp) < l.(timestamp))%Z); [|done].
      erewrite list_find_insert_other; [done..| |]; unfold has_email; congruence.
    + by rewrite list_find_snoc_other.
Qed.

Lemma merge_emails_find e ls acc :
  find (has_email e) (foldl (merge_email LATEST_WINS) acc ls)
  = foldl (latest_step e) (find (has_email e) acc) ls.
Proof.
  revert acc. induction ls as [|l ls IH]; intros acc; simpl; [done|].
  by rewrite IH, merge_email_find.
Qed.

(** The record that survives is the newest of those it was compared
    with. *)
Lemma latest_fold_Some e ls cur :
  ∃ m, foldl (latest_step e) (Some cur) ls = Some m ∧
       (cur.(timestamp) ≤ m.(timestamp))%Z ∧
       (∀ l, l ∈ ls → l.(email) = e → (l.(timestamp) ≤ m.(timestamp))%Z) ∧
       (m = cur ∨
        (m ∈ ls ∧ m.(email) = e ∧ (cur.(timestamp) < m.(timestamp))%Z)).
Proof.
  revert cur. induction ls as [|l ls IH]; intros cur; simpl.
  - exists cur. split_and!; [done|lia| |by left].
    intros l Hl. by apply elem_of_nil in Hl.
  - unfold latest_step at 2. case_decide as He; [case_decide as Hts|].
    + destruct (IH l) as (m & Hm & Hle & Hall & Hcase).
      exists m. split_and!; [done|lia| |].
      * intros l' [->|Hl']%elem_of_cons He'; [lia | by apply Hall].
      * right. destruct Hcase as [->|(Hin & Hem & Hlt)].
        -- split_and!; [by left|done|lia].
        -- split_and!; [by right|done|lia].
    + destruct (IH cur) as (m & Hm & Hle & Hall & Hcase).
      exists m. split_and!; [done|done| |].
      * intros l' [->|Hl']%elem_of_cons He'; [lia | by apply Hall].
      * destruct Hcase as [->|(Hin & Hem & Hlt)]; [by left|].
        right. split_and!; [by right|done|done].
    + destruct (IH cur) as (m & Hm & Hle & Hall & Hcase).
      exists m. split_and!; [done|done| |].
      * intros l' [->|Hl']%elem_of_cons He'; [done | by apply Hall].
      * destruct Hcase as [->|(Hin & Hem & Hlt)]; [by left|].
        right. split_and!; [by right|done|done].
Qed.

Lemma latest_fold_None e ls l0 :
  l0 ∈ ls → l0.(email) = e →
  ∃ m, foldl (latest_step e) None ls = Some m ∧
       m ∈ ls ∧ m.(email) = e ∧
       (∀ l, l ∈ ls → l.(email) = e → (l.(timestamp) ≤ m.(timestamp))%Z).
Proof.
  induction ls as [|l ls IH]; intros Hin He0; [by apply elem_of_nil in Hin|].
  simpl. unfold latest_step at 2. case_decide as He.
  - destruct (latest_fold_Some e ls l) as (m & Hm & Hle & Hall & Hcase).
    exists m. split_and!; [done| | |].
    + destruct Hcase as [->|(? & _)]; [by left | by right].
    + destruct Hcase as [->|(_ & ? & _)]; done.
    + intros l' [->|Hl']%elem_of_cons He'; [done | by apply Hall].
  - apply elem_of_cons in Hin as [->|Hin]; [done|].
    destruct (IH Hin He0) as (m & Hm & Hmin & Hem & Hall).
    exists m. split_and!; [done|by right|done|].
    intros l' [->|Hl']%elem_of_cons He'; [done | by apply Hall].
Qed.

(** The merged object, key by key. *)
Lemma smartMerge_lookup (localData remoteData : DomainMappings) strategy d :
  smartMerge localData remoteData strategy !! d =
    match localData !! d with
    | Some ls =>
        Some (foldl (merge_email strategy) (default [] (remoteData !! d)) ls)
    | None => remoteData !! d
    end.
Proof.
  unfold smartMerge. revert d.
  apply (map_fold_weak_ind (λ merged (loc : DomainMappings), ∀ d,
    merged !! d = match loc !! d with
                  | Some ls =>
                      Some (foldl (merge_email strategy)
                              (default [] (remoteData !! d)) ls)
                  | None => remoteData !! d
                  end)).
  - intros d. by rewrite lookup_empty.
  - intros i ls loc merged Hi IH d. cbv zeta.
    destruct (decide (i = d)) as [->|Hne].
    + rewrite !lookup_insert_eq, ensure_domain_lookup_total.
      by rewrite IH, Hi.
    + rewrite !lookup_insert_ne by done.
      rewrite ensure_domain_lookup_ne by done. apply IH.
Qed.

(** The record the merged list holds for an address that local and remote
    share, and for one that only local has. *)
Lemma smartMerge_latest_find (localData remoteData : DomainMappings) d e ls :
  localData !! d = Some ls →
  find (has_email e) (smartMerge localData remoteData LATEST_WINS !!! d)
  = foldl (latest_step e)
      (find (has_email e) (default [] (remoteData !! d))) ls.
Proof.
  intros Hl. rewrite lookup_total_alt, smartMerge_lookup, Hl. simpl.
  apply merge_emails_find.
Qed.

(** C1: under LATEST_WINS, for an address [e] that the local list of a
    domain holds (as record [l], say): when the remote list of that domain
    holds [e] too, as record [r], the merged list holds for [e] a record
    that is at least as recent as both, and it is [r] or a local record
    strictly more recent than [r]; when the remote store does not hold
    [e] for that domain, the merged list holds a local record for [e]. *)
Theorem C1_smartMerge_latest_wins (localData remoteData : DomainMappings)
    (d e : string) (ls : list EmailMapping) (l : EmailMapping) :
  localData !! d = Some ls → l ∈ ls → l.(email) = e →
  let merged := smartMerge localData remoteData LATEST_WINS in
  (∀ rs r, remoteData !! d = Some rs → find (has_email e) rs = Some r →
     ∃ m, find (has_email e) (merged !!! d) = Some m ∧
          (r.(timestamp) ≤ m.(timestamp))%Z ∧
          (l.(timestamp) ≤ m.(timestamp))%Z ∧
          (m = r ∨
           (m ∈ ls ∧ m.(email) = e ∧ (r.(timestamp) < m.(timestamp))%Z)))
  ∧
  (find (has_email e) (default [] (remoteData !! d)) = None →
     ∃ m, find (has_email e) (merged !!! d) = Some m ∧
          m ∈ ls ∧ m.(email) = e ∧ (l.(timestamp) ≤ m.(timestamp))%Z).
Proof.
  intros Hls Hin He merged. subst merged. split.
  - intros rs r Hrs Hr.
    rewrite (smartMerge_latest_find _ _ _ _ _ Hls), Hrs. simpl. rewrite Hr.
    destruct (latest_fold_Some e ls r) as (m & Hm & Hle & Hall & Hcase).
    exists m. split_and!; auto.
  - intros Hnone.
    rewrite (smartMerge_latest_find _ _ _ _ _ Hls), Hnone.
    destruct (latest_fold_None e ls l Hin He) as (m & Hm & Hmin & Hem & Hall).
    exists m. split_and!; auto.
Qed.

Lemma C1_witness :
  let merged := smartMerge sample_local sample_remote LATEST_WINS in
  (∀ rs r, sample_remote !! "example.com" = Some rs →
     find (has_email "e1@x.com") rs = Some r →
     ∃ m, find (has_email "e1@x.com") (merged !!! "example.com") = Some m ∧
          (r.(timestamp) ≤ m.(timestamp))%Z ∧
          ((sample "e1@x.com" 100).(timestamp) ≤ m.(timestamp))%Z ∧
          (m = r ∨
           (m ∈ [sample "e1@x.com" 100; sample "e2@x.com" 70] ∧
            m.(email) = "e1@x.com" ∧ (r.(timestamp) < m.(timestamp))%Z)))
  ∧
  (find (has_email "e1@x.com")
     (default [] (sample_remote !! "example.com")) = None →
     ∃ m, find (has_email "e1@x.com") (merged !!! "example.com") = Some m ∧
          m ∈ [sample "e1@x.com" 100; sample "e2@x.com" 70] ∧
          m.(email) = "e1@x.com" ∧
          ((sample "e1@x.com" 100).(timestamp) ≤ m.(timestamp))%Z).
Proof.
  apply (C1_smartMerge_latest_wins sample_local sample_remote
           "example.com" "e1@x.com"
           [sample "e1@x.com" 100; sample "e2@x.com" 70]
           (sample "e1@x.com" 100)).
  - vm_compute. reflexivity.
  - apply list_elem_of_here.
  - reflexivity.
Defined.

(** When the local list holds the address once, the merged record is the
    local one if it is strictly more recent, the remote one otherwise. *)
Lemma smartMerge_latest_wins_unique (localData remoteData : DomainMappings)
    d e ls l rs r :
  localData !! d = Some ls → filter (has_email e) ls = [l] →
  remoteData !! d = Some rs → find (has_email e) rs = Some r →
  find (has_email e) (smartMerge localData remoteData LATEST_WINS !!! d)
  = Some (if decide (r.(timestamp) < l.(timestamp))%Z then l else r).
Proof.
  intros Hls Huniq Hrs Hr.
  rewrite (smartMerge_latest_find _ _ _ _ _ Hls), Hrs. simpl. rewrite Hr.
  assert (∀ x, x ∈ ls → x.(email) = e → x = l) as Hone.
  { intros x Hx Hex.
    assert (x ∈ filter (has_email e) ls) as Hf by by apply list_elem_of_filter.
    rewrite Huniq in Hf. by apply list_elem_of_singleton in Hf. }
  assert (l ∈ ls ∧ l.(email) = e) as [Hl Hel].
  { assert (l ∈ filter (has_email e) ls) as Hf by (rewrite Huniq; by left).
    apply list_elem_of_filter in Hf as [? ?]. done. }
  destruct (latest_fold_Some e ls r) as (m & -> & Hle & Hall & Hcase).
  f_equal. specialize (Hall l Hl Hel).
  case_decide.
  - destruct Hcase as [->|(Hin & Hem & _)]; [lia | by apply Hone].
  - destruct Hcase as [->|(Hin & Hem & Hlt)]; [done|].
    rewrite (Hone m Hin Hem) in Hlt. lia.
Qed.

(** The example of the specification: local [e1] seen at 100 and remote
    [e1] seen at 50 merge to the record seen at 100, and [e2], which only
    local has, is in the merged list. *)
Lemma smartMerge_sample :
  smartMerge sample_local sample_remote LATEST_WINS !! "example.com"
  = Some [sample "e1@x.com" 100; sample "e2@x.com" 70].
Proof. vm_compute. reflexivity. Qed.

(** ** Upsert *)

Lemma findIndex_None e (entries : list EmailMapping) :
  findIndex (has_email e) entries = None ↔ Forall (λ x, x.(email) ≠ e) entries.
Proof. unfold findIndex. rewrite fmap_None. apply list_find_None. Qed.

Lemma findIndex_Some e (entries : list EmailMapping) i :
  findIndex (has_email e) entries = Some i →
  ∃ x, entries !! i = Some x ∧ x.(email) = e.
Proof.
  unfold findIndex. destruct (list_find _ entries) as [[j x]|] eqn:Hl;
    intros; simplify_eq/=.
  apply list_find_Some in Hl as (? & ? & _). by exists x.
Qed.

(** What [saveEmailMapping] leaves in the store. *)
Lemma saveEmailMapping_exec now d e url (st : DomainMappings) :
  exec (saveEmailMapping now d e url) st =
  <[d := match findIndex (has_email e) (default [] (st !! d)) with
         | Some i =>
             alter (λ entry, mkEmailMapping entry.(email) url now
                               (entry.(count) + 1)%Z entry.(description))
                   i (default [] (st !! d))
         | None =>
             unshift_capped 5 (mkEmailMapping e url now 1%Z None)
               (default [] (st !! d))
         end]> st.
Proof.
  unfold exec, saveEmailMapping, storage_bind, getEmailMappings, storage_get.
  simpl. rewrite ensure_domain_lookup_total.
  destruct (findIndex _ _); simpl; by rewrite insert_ensure_domain.
Qed.

Lemma unshift_capped_overflow cap x xs :
  0 < cap → cap ≤ length xs →
  unshift_capped cap x xs = x :: take (cap - 1) xs.
Proof.
  intros Hpos Hlen. unfold unshift_capped, Js.slice_to.
  rewrite decide_True by (simpl; lia).
  destruct cap as [|cap]; [lia|]. simpl. by rewrite Nat.sub_0_r.
Qed.

Lemma unshift_capped_fits cap x xs :
  length xs < cap → unshift_capped cap x xs = x :: xs.
Proof.
  intros Hlen. unfold unshift_capped. rewrite decide_False; [done|simpl; lia].
Qed.


Lemma unshift_capped_cons cap x xs :
  0 < cap → ∃ rest, unshift_capped cap x xs = x :: rest ∧ rest `sublist_of` xs.
Proof.
  intros Hpos. destruct (decide (cap ≤ length xs)).
  - rewrite unshift_capped_overflow by done. eexists. split; [done|].
    apply sublist_take.
  - rewrite unshift_capped_fits by lia. by eexists.
Qed.

(** C3, as the code has it: a sixth distinct address for a domain that
    holds five records goes to the head and the record at the tail is
    dropped, which leaves five records, the new one followed by the first
    four old ones in their order.  A record that is seen again is updated
    where it stands, so the tail is the oldest insertion; it is the least
    recently touched record, and the new list is ordered most recently
    touched first, when the old list was so ordered and the clock is not
    behind its head. *)
Theorem C3_sixth_email_drops_tail (st : DomainMappings) (now : Z)
    (d e url : string) (old : list EmailMapping) :
  st !! d = Some old → length old = 5 →
  Forall (λ r, r.(email) ≠ e) old →
  let new := mkEmailMapping e url now 1%Z None in
  ∃ tail,
    old = take 4 old ++ [tail] ∧
    exec (saveEmailMapping now d e url) st !! d = Some (new :: take 4 old) ∧
    length (new :: take 4 old) = 5 ∧
    (recent_first old →
     (∀ r, head old = Some r → (r.(timestamp) ≤ now)%Z) →
     recent_first (new :: take 4 old) ∧
     ∀ r, r ∈ old → (tail.(timestamp) ≤ r.(timestamp))%Z).
Proof.
  intros Hst Hlen Hnew new.
  destruct old as [|a [|b [|c [|x [|tail [|? ?]]]]]]; try discriminate.
  exists tail. split_and!.
  - done.
  - rewrite saveEmailMapping_exec, lookup_insert_eq, Hst. simpl.
    apply findIndex_None in Hnew. rewrite Hnew.
    by rewrite unshift_capped_overflow by (simpl; lia).
  - done.
  - intros Hsorted Hhead. specialize (Hhead a eq_refl).
    unfold recent_first in *. simpl.
    apply StronglySorted_inv in Hsorted as [Hs1 Ha].
    apply StronglySorted_inv in Hs1 as [Hs2 Hb].
    apply StronglySorted_inv in Hs2 as [Hs3 Hc].
    apply StronglySorted_inv in Hs3 as [Hs4 Hx].
    rewrite !Forall_cons in Ha, Hb, Hc, Hx.
    split.
    + repeat (constructor; [|rewrite ?Forall_cons, ?Forall_nil; simpl; lia]).
      constructor.
    + intros r Hr. rewrite !elem_of_cons in Hr.
      destruct Hr as [->|[->|[->|[->|[->|Hr]]]]];
        [lia..|by apply elem_of_nil in Hr].
Qed.

Lemma C3_witness :
  ∃ tail,
    [sample "e@x.com" 5; sample "d@x.com" 4; sample "c@x.com" 3;
     sample "b@x.com" 2; sample "a@x.com" 1]
    = [sample "e@x.com" 5; sample "d@x.com" 4; sample "c@x.com" 3;
       sample "b@x.com" 2] ++ [tail] ∧
    exec (saveEmailMapping 6 "example.com" "f@x.com" "https://example.com/oauth")
      five_seen !! "example.com"
    = Some [sample "f@x.com" 6; sample "e@x.com" 5; sample "d@x.com" 4;
            sample "c@x.com" 3; sample "b@x.com" 2] ∧
    length [sample "f@x.com" 6; sample "e@x.com" 5; sample "d@x.com" 4;
            sample "c@x.com" 3; sample "b@x.com" 2] = 5 ∧
    (recent_first [sample "e@x.com" 5; sample "d@x.com" 4; sample "c@x.com" 3;
                   sample "b@x.com" 2; sample "a@x.com" 1] →
     (∀ r, head [sample "e@x.com" 5; sample "d@x.com" 4; sample "c@x.com" 3;
                 sample "b@x.com" 2; sample "a@x.com" 1] = Some r →
           (r.(timestamp) ≤ 6)%Z) →
     recent_first [sample "f@x.com" 6; sample "e@x.com" 5; sample "d@x.com" 4;
                   sample "c@x.com" 3; sample "b@x.com" 2] ∧
     ∀ r, r ∈ [sample "e@x.com" 5; sample "d@x.com" 4; sample "c@x.com" 3;
               sample "b@x.com" 2; sample "a@x.com" 1] →
          (tail.(timestamp) ≤ r.(timestamp))%Z).
Proof.
  apply (C3_sixth_email_drops_tail five_seen 6 "example.com" "f@x.com"
           "https://example.com/oauth"
           [sample "e@x.com" 5; sample "d@x.com" 4; sample "c@x.com" 3;
            sample "b@x.com" 2; sample "a@x.com" 1]).
  - vm_compute. reflexivity.
  - reflexivity.
  - apply (bool_decide_unpack _). vm_compute. exact I.
Defined.

(** C3 as stated fails once a record has been seen again: it keeps its
    place, so the record dropped from the tail can be more recently
    touched than one that stays, and the list left behind need not be
    ordered by time of last touch. *)
Lemma C3_counterexample :
  let st := five_seen_two_again in
  let st' :=
    exec (saveEmailMapping 8 "example.com" "f@x.com" "https://example.com/oauth")
      st in
  ∃ old new evicted kept,
    st !! "example.com" = Some old ∧ length old = 5 ∧
    Forall (λ r, r.(email) ≠ "f@x.com") old ∧
    st' !! "example.com" = Some new ∧ length new = 5 ∧
    evicted ∈ old ∧ ¬ (evicted ∈ new) ∧ kept ∈ old ∧ kept ∈ new ∧
    (kept.(timestamp) < evicted.(timestamp))%Z ∧
    ¬ recent_first new.
Proof.
  set (u := "https://example.com/oauth").
  exists [sample "e@x.com" 5; mkEmailMapping "d@x.com" u 7 2 None;
          sample "c@x.com" 3; sample "b@x.com" 2;
          mkEmailMapping "a@x.com" u 6 2 None].
  exists [sample "f@x.com" 8; sample "e@x.com" 5;
          mkEmailMapping "d@x.com" u 7 2 None;
          sample "c@x.com" 3; sample "b@x.com" 2].
  exists (mkEmailMapping "a@x.com" u 6 2 None).
  exists (sample "b@x.com" 2).
  split_and!.
  - vm_compute. reflexivity.
  - reflexivity.
  - apply (bool_decide_unpack _). vm_compute. exact I.
  - vm_compute. reflexivity.
  - reflexivity.
  - apply (bool_decide_unpack _). vm_compute. exact I.
  - apply (bool_decide_unpack _). vm_compute. exact I.
  - apply (bool_decide_unpack _). vm_compute. exact I.
  - apply (bool_decide_unpack _). vm_compute. exact I.
  - simpl. lia.
  - unfold recent_first. intros Hs.
    apply StronglySorted_inv in Hs as [Hs _].
    apply StronglySorted_inv in Hs as [_ Hf].
    rewrite Forall_cons in Hf. simpl in Hf. lia.
Qed.

(** ** Upserting the same address twice *)

(** [saveEmailMapping] called twice with an address the domain did not
    hold leaves one record for it, counted twice. *)
Lemma saveEmailMapping_twice (st : DomainMappings) now1 now2 d e url1 url2 :
  findIndex (has_email e) (default [] (st !! d)) = None →
  let st2 :=
    exec (saveEmailMapping now2 d e url2)
      (exec (saveEmailMapping now1 d e url1) st) in
  filter (has_email e) (st2 !!! d) = [mkEmailMapping e url2 now2 2%Z None].
Proof.
  intros Hnone st2. subst st2.
  rewrite (saveEmailMapping_exec now2), lookup_total_insert_eq.
  rewrite (saveEmailMapping_exec now1), lookup_insert_eq, Hnone. simpl.
  destruct (unshift_capped_cons 5 (mkEmailMapping e url1 now1 1%Z None)
              (default [] (st !! d))) as (rest & -> & Hsub); [lia|].
  unfold findIndex. simpl. rewrite decide_True by done. simpl.
  rewrite filter_cons_True by done. f_equal.
  apply findIndex_None in Hnone.
  assert (Forall (λ x, x.(email) ≠ e) rest) as Hrest.
  { rewrite Forall_forall in Hnone |- *. intros x Hx. apply Hnone.
    by eapply elem_of_sublist. }
  clear -Hrest. induction Hrest as [|x rest Hx _ IH]; [done|].
  by rewrite filter_cons_False.
Qed.

(** [storeEmailMapping] writes nothing back for an address the domain
    already holds. *)
Lemma storeEmailMapping_known (st : DomainMappings) now d e url i :
  findIndex (has_email e) (default [] (st !! d)) = Some i →
  exec (storeEmailMapping now d e url) st = st.
Proof.
  intros Hfound.
  unfold exec, storeEmailMapping, storage_bind, storage_get. simpl.
  by rewrite ensure_domain_lookup_total, Hfound.
Qed.

(** C4 fails on [storeEmailMapping]: after two calls with the same domain
    and address on the empty store, the record kept in storage still has
    count 1 and the time of the first call, whereas [saveEmailMapping]
    leaves count 2. *)
Theorem C4_storeEmailMapping_second_call_not_persisted :
  let st2 :=
    exec (storeEmailMapping 2 "example.com" "a@x.com" "https://example.com/b")
      (exec (storeEmailMapping 1 "example.com" "a@x.com" "https://example.com/a")
         ∅) in
  st2 !! "example.com"
    = Some [mkEmailMapping "a@x.com" "https://example.com/a" 1 1 None] ∧
  exec (saveEmailMapping 2 "example.com" "a@x.com" "https://example.com/b")
    (exec (saveEmailMapping 1 "example.com" "a@x.com" "https://example.com/a")
       ∅) !! "example.com"
    = Some [mkEmailMapping "a@x.com" "https://example.com/b" 2 2 None].
Proof. split; vm_compute; reflexivity. Qed.

(** ** Uniqueness of addresses within a list *)

Lemma unique_emails_insert (st : DomainMappings) d entries :
  unique_emails st → NoDup (email <$> entries) →
  unique_emails (<[d := entries]> st).
Proof.
  intros Hst Hnd d' entries' Hl.
  destruct (decide (d = d')) as [->|Hne].
  - rewrite lookup_insert_eq in Hl. by simplify_eq.
  - rewrite lookup_insert_ne in Hl by done. by eapply Hst.
Qed.

Lemma unique_emails_default (st : DomainMappings) d :
  unique_emails st → NoDup (email <$> default [] (st !! d)).
Proof.
  intros Hst. destruct (st !! d) as [l|] eqn:Hl; simpl.
  - by eapply Hst.
  - constructor.
Qed.

Lemma NoDup_emails_alter (f : EmailMapping → EmailMapping) i entries :
  (∀ x, (f x).(email) = x.(email)) →
  NoDup (email <$> entries) → NoDup (email <$> alter f i entries).
Proof.
  intros Hf Hnd.
  rewrite (list_fmap_alter email f id) by (apply Forall_true, Hf).
  by rewrite list_alter_id.
Qed.

Lemma NoDup_emails_unshift cap x entries :
  0 < cap → Forall (λ y, y.(email) ≠ x.(email)) entries →
  NoDup (email <$> entries) → NoDup (email <$> unshift_capped cap x entries).
Proof.
  intros Hcap Hnew Hnd.
  destruct (unshift_capped_cons cap x entries Hcap) as (rest & -> & Hsub).
  rewrite fmap_cons. apply NoDup_cons. split.
  - intros (y & Hy & Hin)%list_elem_of_fmap.
    rewrite Forall_forall in Hnew. apply (Hnew y); [|done].
    by eapply elem_of_sublist.
  - apply (sublist_NoDup _ (email <$> entries)); [done|].
    by apply fmap_sublist.
Qed.

Lemma saveEmailMapping_unique (st : DomainMappings) now d e url :
  unique_emails st → unique_emails (exec (saveEmailMapping now d e url) st).
Proof.
  intros Hst. rewrite saveEmailMapping_exec.
  apply unique_emails_insert; [done|].
  pose proof (unique_emails_default st d Hst) as Hnd.
  destruct (findIndex _ _) as [i|] eqn:Hfind.
  - by apply NoDup_emails_alter.
  - apply NoDup_emails_unshift; [lia| |done].
    by apply findIndex_None in Hfind.
Qed.

Lemma ADD_EMAIL_exec now d e (st : DomainMappings) :
  exec (ADD_EMAIL now d e) st =
  match findIndex (has_email e) (default [] (st !! d)) with
  | None =>
      <[d := unshift_capped 10
               (mkEmailMapping e ("manual://" +:+ d) now 1%Z None)
               (default [] (st !! d))]> st
  | Some _ => st
  end.
Proof.
  unfold exec, ADD_EMAIL, storage_bind, storage_get. simpl.
  rewrite ensure_domain_lookup_total.
  destruct (findIndex _ _); simpl; [done|]. by rewrite insert_ensure_domain.
Qed.

Lemma ADD_EMAIL_unique (st : DomainMappings) now d e :
  unique_emails st → unique_emails (exec (ADD_EMAIL now d e) st).
Proof.
  intros Hst. rewrite ADD_EMAIL_exec.
  destruct (findIndex _ _) as [i|] eqn:Hfind; [done|].
  apply unique_emails_insert; [done|].
  apply NoDup_emails_unshift; [lia| |by apply unique_emails_default].
  by apply findIndex_None in Hfind.
Qed.

Lemma storeEmailMapping_exec now d e url (st : DomainMappings) :
  exec (storeEmailMapping now d e url) st =
  match findIndex (has_email e) (default [] (st !! d)) with
  | None =>
      <[d := unshift_capped 10 (mkEmailMapping e url now 1%Z None)
               (default [] (st !! d))]> st
  | Some _ => st
  end.
Proof.
  unfold exec, storeEmailMapping, storage_bind, storage_get. simpl.
  rewrite ensure_domain_lookup_total.
  destruct (findIndex _ _); simpl; [done|]. by rewrite insert_ensure_domain.
Qed.

Lemma LOGIN_DETECTED_exec e website ts url (st : DomainMappings) :
  exec (LOGIN_DETECTED e website ts url) st =
  <[website :=
      match findIndex (has_email e) (default [] (st !! website)) with
      | None =>
          unshift_capped 10 (mkEmailMapping e url ts 1%Z None)
            (default [] (st !! website))
      | Some i =>
          alter (λ entry, mkEmailMapping entry.(email) entry.(apiUrl) ts
                            (entry.(count) + 1)%Z entry.(description))
                i (default [] (st !! website))
      end]> st.
Proof.
  unfold exec, LOGIN_DETECTED, storage_bind, storage_get. simpl.
  rewrite ensure_domain_lookup_total.
  destruct (findIndex _ _); simpl; by rewrite insert_ensure_domain.
Qed.

Lemma storeEmailMapping_unique (st : DomainMappings) now d e url :
  unique_emails st → unique_emails (exec (storeEmailMapping now d e url) st).
Proof.
  intros Hst. rewrite storeEmailMapping_exec.
  destruct (findIndex _ _) as [i|] eqn:Hfind; [done|].
  apply unique_emails_insert; [done|].
  apply NoDup_emails_unshift; [lia| |by apply unique_emails_default].
  by apply findIndex_None in Hfind.
Qed.

Lemma LOGIN_DETECTED_unique (st : DomainMappings) e website ts url :
  unique_emails st →
  unique_emails (exec (LOGIN_DETECTED e website ts url) st).
Proof.
  intros Hst. rewrite LOGIN_DETECTED_exec.
  apply unique_emails_insert; [done|].
  pose proof (unique_emails_default st website Hst) as Hnd.
  destruct (findIndex _ _) as [i|] eqn:Hfind.
  - by apply NoDup_emails_alter.
  - apply NoDup_emails_unshift; [lia| |done].
    by apply findIndex_None in Hfind.
Qed.

Lemma DELETE_EMAIL_exec d e (st : DomainMappings) :
  exec (DELETE_EMAIL d e) st =
  match st !! d with
  | Some entries =>
      let kept := filter (λ entry, entry.(email) ≠ e) entries in
      if decide (kept = []) then delete d st else <[d := kept]> st
  | None => st
  end.
Proof.
  unfold exec, DELETE_EMAIL, storage_bind, storage_get. simpl.
  destruct (st !! d) as [entries|]; simpl; [|done].
  destruct (filter _ entries) as [|x kept] eqn:Hf; simpl.
  - apply delete_insert_eq.
  - done.
Qed.

Lemma DELETE_EMAIL_unique (st : DomainMappings) d e :
  unique_emails st → unique_emails (exec (DELETE_EMAIL d e) st).
Proof.
  intros Hst. rewrite DELETE_EMAIL_exec.
  destruct (st !! d) as [entries|] eqn:Hl; [|done]. cbv zeta.
  case_decide.
  - intros d' entries' Hl'. apply lookup_delete_Some in Hl' as [_ Hl'].
    by eapply Hst.
  - apply unique_emails_insert; [done|].
    apply (sublist_NoDup _ (email <$> entries)); [by eapply Hst|].
    apply fmap_sublist, sublist_filter.
Qed.

Lemma merge_email_unique strategy acc l :
  NoDup (email <$> acc) → NoDup (email <$> merge_email strategy acc l).
Proof.
  intros Hnd. unfold merge_email.
  destruct (list_find _ acc) as [[i r]|] eqn:Hfind.
  - apply list_find_Some in Hfind as (Hi & Hr & _). unfold has_email in Hr.
    assert (email <$> <[i := l]> acc = email <$> acc) as Heq.
    { rewrite list_fmap_insert. apply list_insert_id.
      by rewrite list_lookup_fmap, Hi, <- Hr. }
    destruct strategy; try case_decide; by rewrite ?Heq.
  - apply list_find_None in Hfind. rewrite fmap_app. simpl.
    apply NoDup_app. split_and!; [done| |apply NoDup_singleton].
    intros x (y & -> & Hy)%list_elem_of_fmap Hx.
    apply list_elem_of_singleton in Hx.
    rewrite Forall_forall in Hfind. by apply (Hfind y).
Qed.

Lemma smartMerge_unique (localData remoteData : DomainMappings) strategy :
  unique_emails remoteData →
  unique_emails (smartMerge localData remoteData strategy).
Proof.
  intros Hr d entries Hl. rewrite smartMerge_lookup in Hl.
  destruct (localData !! d) as [ls|]; [|by eapply Hr].
  simplify_eq. generalize (unique_emails_default remoteData d Hr).
  generalize (default [] (remoteData !! d)).
  induction ls as [|l ls IH]; intros acc Hacc; simpl; [done|].
  by apply IH, merge_email_unique.
Qed.

(** C5 fails on the edit operation: the EDIT_EMAIL handler renames a
    record without looking for the new address in the list.  From the
    store reached by adding two addresses, whose list has distinct
    addresses, renaming the one to the other is answered with success
    and leaves the same address twice. *)
Theorem C5_EDIT_EMAIL_duplicates_address :
  let st :=
    exec (ADD_EMAIL 2 "example.com" "b@x.com")
      (exec (ADD_EMAIL 1 "example.com" "a@x.com") ∅) in
  let st' := exec (EDIT_EMAIL 3 "example.com" "a@x.com" "b@x.com" None) st in
  unique_emails st ∧
  (eval (EDIT_EMAIL 3 "example.com" "a@x.com" "b@x.com" None) st).(success) = true ∧
  email <$> (st' !!! "example.com") = ["b@x.com"; "b@x.com"] ∧
  ¬ unique_emails st'.
Proof.
  split_and!.
  - apply ADD_EMAIL_unique, ADD_EMAIL_unique.
    intros d entries H. by rewrite lookup_empty in H.
  - vm_compute. reflexivity.
  - vm_compute. reflexivity.
  - intros Hu.
    assert (exec (EDIT_EMAIL 3 "example.com" "a@x.com" "b@x.com" None)
              (exec (ADD_EMAIL 2 "example.com" "b@x.com")
                 (exec (ADD_EMAIL 1 "example.com" "a@x.com") ∅))
            !! "example.com"
            = Some [mkEmailMapping "b@x.com" "manual://example.com" 2 1 None;
                    mkEmailMapping "b@x.com" "manual://example.com" 3 1 None])
      as Hl by (vm_compute; reflexivity).
    apply Hu in Hl. simpl in Hl.
    apply NoDup_cons in Hl as [Hl _]. apply Hl. by left.
Qed.

(** ** The cap on the length of a list *)




















(** ** Removing a record *)

Lemma stats_fold_totalDomains l s0 :
  (foldl stats_step s0 l).(totalDomains) = s0.(totalDomains).
Proof.
  revert s0. induction l as [|[d entries] l IH]; intros s0; simpl; [done|].
  by rewrite IH.
Qed.

Lemma getStorageStats_totalDomains (st : DomainMappings) :
  (eval getStorageStats st).(totalDomains) = size st.
Proof.
  unfold eval, getStorageStats, storage_bind, getEmailMappings, storage_get,
    storage_ret. simpl.
  rewrite stats_fold_totalDomains. simpl.
  by rewrite length_fmap, length_map_to_list.
Qed.

(** C7, as the code has it: the DELETE_EMAIL handler answers with success
    exactly when the store has the domain, whether or not the list holds
    the address; it keeps the records of the list with another address,
    and deletes the key when none is left.  Removing the only record of
    a domain takes one domain off the statistics, which report zero
    domains when the store had no other. *)
Theorem C7_DELETE_EMAIL_reports_domain_found (st : DomainMappings) (d e : string) :
  let reply := eval (DELETE_EMAIL d e) st in
  let st' := exec (DELETE_EMAIL d e) st in
  (reply.(success) = true ↔ is_Some (st !! d)) ∧
  (∀ entries, st !! d = Some entries →
     let kept := filter (λ entry, entry.(email) ≠ e) entries in
     st' !! d = if decide (kept = []) then None else Some kept) ∧
  (st !! d = None → st' = st) ∧
  (∀ d', d' ≠ d → st' !! d' = st !! d') ∧
  (∀ entry, st !! d = Some [entry] → entry.(email) = e →
     st' !! d = None ∧
     S (eval getStorageStats st').(totalDomains)
     = (eval getStorageStats st).(totalDomains)) ∧
  (∀ entry, st = {[ d := [entry] ]} → entry.(email) = e →
     (eval getStorageStats st').(totalDomains) = 0).
Proof.
  intros reply st'. subst reply st'. split_and!.
  - unfold eval, DELETE_EMAIL, storage_bind, storage_get. simpl.
    destruct (st !! d) as [entries|]; simpl.
    + split; [by eexists | done].
    + split; [done | by intros [? ?]].
  - intros entries Hl kept. subst kept. rewrite DELETE_EMAIL_exec, Hl. simpl.
    case_decide.
    + apply lookup_delete_eq.
    + apply lookup_insert_eq.
  - intros Hl. by rewrite DELETE_EMAIL_exec, Hl.
  - intros d' Hne. rewrite DELETE_EMAIL_exec.
    destruct (st !! d) as [entries|]; simpl; [|done].
    case_decide.
    + by rewrite lookup_delete_ne.
    + by rewrite lookup_insert_ne.
  - intros entry Hl He. rewrite !getStorageStats_totalDomains.
    rewrite DELETE_EMAIL_exec, Hl. cbv zeta.
    rewrite filter_cons_False by (by intros Hne; apply Hne).
    rewrite filter_nil, decide_True by done.
    split; [apply lookup_delete_eq|].
    rewrite map_size_delete, Hl.
    assert (size st ≠ 0); [|lia].
    intros Hz. apply map_size_empty_iff in Hz. subst. by rewrite lookup_empty in Hl.
  - intros entry -> He. rewrite getStorageStats_totalDomains.
    rewrite DELETE_EMAIL_exec, lookup_singleton_eq. cbv zeta.
    rewrite filter_cons_False by (by intros Hne; apply Hne).
    rewrite filter_nil, decide_True by done.
    by rewrite delete_singleton_eq, map_size_empty.
Qed.

(** C7 as stated fails on the answer: asking to remove an address the
    list does not hold is answered with success, and the store is left
    as it was. *)
Lemma C7_counterexample :
  let st : DomainMappings := {[ "example.com" := [sample "a@x.com" 1] ]} in
  find (has_email "b@x.com") (st !!! "example.com") = None ∧
  (eval (DELETE_EMAIL "example.com" "b@x.com") st).(success) = true ∧
  exec (DELETE_EMAIL "example.com" "b@x.com") st = st.
Proof. split_and!; vm_compute; reflexivity. Qed.

(** Runs of the operations: the eleventh address added by hand drops the
    first one; the local store after a sync holds the last five records
    of a merged list of ten; removing the only record of the only domain
    leaves statistics with no domain. *)
Lemma ADD_EMAIL_overflow_sample :
  email <$> (added ["m0@x.com"; "m1@x.com"; "m2@x.com"; "m3@x.com"; "m4@x.com";
                    "m5@x.com"; "m6@x.com"; "m7@x.com"; "m8@x.com"; "m9@x.com";
                    "m10@x.com"] !!! "example.com")
  = ["m10@x.com"; "m9@x.com"; "m8@x.com"; "m7@x.com"; "m6@x.com";
     "m5@x.com"; "m4@x.com"; "m3@x.com"; "m2@x.com"; "m1@x.com"].
Proof. vm_compute. reflexivity. Qed.

Lemma updateLocalStorage_sample :
  email <$> (smartMerge five_seen five_remote LATEST_WINS !!! "example.com")
  = ["t@x.com"; "s@x.com"; "r@x.com"; "q@x.com"; "p@x.com";
     "e@x.com"; "d@x.com"; "c@x.com"; "b@x.com"; "a@x.com"] ∧
  email <$> (exec (updateLocalStorage (λ k, Z.of_nat k)
                     (smartMerge five_seen five_remote LATEST_WINS))
               five_seen !!! "example.com")
  = ["a@x.com"; "b@x.com"; "c@x.com"; "d@x.com"; "e@x.com"].
Proof. split; vm_compute; reflexivity. Qed.

Lemma DELETE_EMAIL_last_record_sample :
  let st : DomainMappings := {[ "example.com" := [sample "a@x.com" 1] ]} in
  let st' := exec (DELETE_EMAIL "example.com" "a@x.com") st in
  (eval (DELETE_EMAIL "example.com" "a@x.com") st).(success) = true ∧
  st' !! "example.com" = None ∧
  eval getStorageStats st' = mkStorageStats 0 0 0 [].
Proof. split_and!; vm_compute; reflexivity. Qed.

(** * Further properties *)

(** ** Looking an address up after an operation *)

Lemma find_has_email_None e (entries : list EmailMapping) :
  find (has_email e) entries = None ↔ e ∉ email <$> entries.
Proof.
  rewrite find_None, Forall_forall. split.
  - intros Hall (x & -> & Hx)%list_elem_of_fmap. by apply (Hall x).
  - intros Hnot x Hx He. apply Hnot. apply list_elem_of_fmap. by exists x.
Qed.

Lemma findIndex_find_None e (entries : list EmailMapping) :
  findIndex (has_email e) entries = None ↔ find (has_email e) entries = None.
Proof. unfold findIndex, find. by rewrite !fmap_None. Qed.

Lemma emails_alter (f : EmailMapping → EmailMapping) (i : nat)
    (entries : list EmailMapping) :
  (∀ x, (f x).(email) = x.(email)) →
  email <$> alter f i entries = email <$> entries.
Proof.
  intros Hf. rewrite (list_fmap_alter email f id) by (apply Forall_true, Hf).
  by rewrite list_alter_id.
Qed.

Lemma emails_unshift_head cap x entries :
  0 < cap → x.(email) ∈ email <$> unshift_capped cap x entries.
Proof.
  intros Hcap.
  destruct (unshift_capped_cons cap x entries Hcap) as (rest & -> & _).
  rewrite fmap_cons. by left.
Qed.

Lemma findIndex_Some_elem e (entries : list EmailMapping) i :
  findIndex (has_email e) entries = Some i → e ∈ email <$> entries.
Proof.
  intros (x & Hx & <-)%findIndex_Some. apply list_elem_of_fmap.
  exists x. split; [done|]. by eapply list_elem_of_lookup_2.
Qed.

Lemma CHECK_NEW_ACCOUNT_eval d e (st : DomainMappings) :
  eval (CHECK_NEW_ACCOUNT d e) st
  = bool_decide (e ∉ email <$> default [] (st !! d)).
Proof.
  unfold eval, CHECK_NEW_ACCOUNT, storage_bind, storage_get, storage_ret.
  cbn [fst snd]. destruct (st !! d) as [entries|]; cbn [default fst].
  - destruct (find (has_email e) entries) as [x|] eqn:Hf; cbn [fst].
    + symmetry. apply bool_decide_eq_false. intros Hnot.
      pose proof (proj2 (find_has_email_None e entries) Hnot). congruence.
    + symmetry. apply bool_decide_eq_true. by apply find_has_email_None.
  - symmetry. apply bool_decide_eq_true. intros H. by apply elem_of_nil in H.
Qed.

(** X1: After any of the four ways of recording an address for a domain, the
    CHECK_NEW_ACCOUNT handler no longer reports it as new for that
    domain; after DELETE_EMAIL it reports it as new again. *)
Theorem address_known_after_upsert (st : DomainMappings) (now : Z)
    (d e url : string) :
  eval (CHECK_NEW_ACCOUNT d e) (exec (saveEmailMapping now d e url) st) = false ∧
  eval (CHECK_NEW_ACCOUNT d e) (exec (storeEmailMapping now d e url) st) = false ∧
  eval (CHECK_NEW_ACCOUNT d e) (exec (LOGIN_DETECTED e d now url) st) = false ∧
  eval (CHECK_NEW_ACCOUNT d e) (exec (ADD_EMAIL now d e) st) = false ∧
  eval (CHECK_NEW_ACCOUNT d e) (exec (DELETE_EMAIL d e) st) = true.
Proof.
  rewrite !CHECK_NEW_ACCOUNT_eval.
  assert (∀ P : Prop, P → ¬ ¬ P) as Hnn by tauto.
  split_and!.
  - apply bool_decide_eq_false, Hnn.
    rewrite saveEmailMapping_exec, lookup_insert_eq. simpl.
    destruct (findIndex _ _) as [i|] eqn:Hf.
    + rewrite emails_alter by done. by eapply findIndex_Some_elem.
    + apply (emails_unshift_head 5 (mkEmailMapping e url now 1 None)). lia.
  - apply bool_decide_eq_false, Hnn.
    rewrite storeEmailMapping_exec.
    destruct (findIndex _ _) as [i|] eqn:Hf.
    + by eapply findIndex_Some_elem.
    + rewrite lookup_insert_eq. simpl.
      apply (emails_unshift_head 10 (mkEmailMapping e url now 1 None)). lia.
  - apply bool_decide_eq_false, Hnn.
    rewrite LOGIN_DETECTED_exec, lookup_insert_eq. simpl.
    destruct (findIndex _ _) as [i|] eqn:Hf.
    + rewrite emails_alter by done. by eapply findIndex_Some_elem.
    + apply (emails_unshift_head 10 (mkEmailMapping e url now 1 None)). lia.
  - apply bool_decide_eq_false, Hnn.
    rewrite ADD_EMAIL_exec.
    destruct (findIndex _ _) as [i|] eqn:Hf.
    + by eapply findIndex_Some_elem.
    + rewrite lookup_insert_eq. simpl.
      apply (emails_unshift_head 10
               (mkEmailMapping e ("manual://" +:+ d) now 1 None)). lia.
  - apply bool_decide_eq_true. rewrite DELETE_EMAIL_exec.
    destruct (st !! d) as [entries|] eqn:Hl; simpl.
    + case_decide as Hk.
      * rewrite lookup_delete_eq. simpl. intros H. by apply elem_of_nil in H.
      * rewrite lookup_insert_eq. simpl.
        intros (x & -> & Hx)%list_elem_of_fmap.
        by apply list_elem_of_filter in Hx as [Hne _].
    + rewrite Hl. simpl. intros H. by apply elem_of_nil in H.
Qed.

(** X2: The LOGIN_DETECTED handler called twice with an address the domain
    did not hold leaves one record for it, counted twice, with the time
    of the second message and the URL of the first. *)
Theorem LOGIN_DETECTED_twice (st : DomainMappings) (e d : string)
    (ts1 ts2 : Z) (url1 url2 : string) :
  findIndex (has_email e) (default [] (st !! d)) = None →
  filter (has_email e)
    (exec (LOGIN_DETECTED e d ts2 url2)
       (exec (LOGIN_DETECTED e d ts1 url1) st) !!! d)
  = [mkEmailMapping e url1 ts2 2%Z None].
Proof.
  intros Hnone.
  rewrite (LOGIN_DETECTED_exec e d ts2), lookup_total_insert_eq.
  rewrite (LOGIN_DETECTED_exec e d ts1), lookup_insert_eq, Hnone. simpl.
  destruct (unshift_capped_cons 10 (mkEmailMapping e url1 ts1 1%Z None)
              (default [] (st !! d))) as (rest & -> & Hsub); [lia|].
  unfold findIndex. simpl. rewrite decide_True by done. simpl.
  rewrite filter_cons_True by done. f_equal.
  apply findIndex_None in Hnone.
  assert (Forall (λ x, x.(email) ≠ e) rest) as Hrest.
  { rewrite Forall_forall in Hnone |- *. intros x Hx. apply Hnone.
    by eapply elem_of_sublist. }
  clear -Hrest. induction Hrest as [|x rest Hx _ IH]; [done|].
  by rewrite filter_cons_False.
Qed.

Lemma LOGIN_DETECTED_twice_witness :
  filter (has_email "a@x.com")
    (exec (LOGIN_DETECTED "a@x.com" "example.com" 20 "https://example.com/b")
       (exec (LOGIN_DETECTED "a@x.com" "example.com" 10 "https://example.com/a")
          five_remote) !!! "example.com")
  = [mkEmailMapping "a@x.com" "https://example.com/a" 20 2%Z None].
Proof.
  apply (LOGIN_DETECTED_twice five_remote "a@x.com" "example.com" 10 20
           "https://example.com/a" "https://example.com/b").
  vm_compute. reflexivity.
Defined.

(** ** Statistics *)

Lemma stats_fold_totals l s0 :
  (foldl stats_step s0 l).(totalEmails) = s0.(totalEmails) + count_emails l ∧
  (foldl stats_step s0 l).(totalLogins)
  = (s0.(totalLogins) + count_logins l)%Z ∧
  length (foldl stats_step s0 l).(domains) = length s0.(domains) + length l.
Proof.
  revert s0. induction l as [|[d entries] l IH]; intros s0.
  - simpl. split_and!; lia.
  - cbn [foldl].
    destruct (IH (stats_step s0 (d, entries))) as (-> & -> & ->).
    unfold count_emails. simpl. rewrite length_app. simpl. split_and!; lia.
Qed.

Lemma count_logins_perm l1 l2 : l1 ≡ₚ l2 → count_logins l1 = count_logins l2.
Proof.
  induction 1 as [|x l1 l2 _ IH|x y l|l1 l2 l3 _ IH1 _ IH2]; simpl; lia.
Qed.

Lemma count_emails_perm l1 l2 : l1 ≡ₚ l2 → count_emails l1 = count_emails l2.
Proof. intros H. unfold count_emails. by rewrite H. Qed.

(** The totals [getStorageStats] reports are the sums over the store. *)
Lemma getStorageStats_totals (st : DomainMappings) :
  let stats := eval getStorageStats st in
  stats.(totalDomains) = size st ∧
  stats.(totalEmails) = count_emails (map_to_list st) ∧
  stats.(totalLogins) = count_logins (map_to_list st) ∧
  length stats.(domains) = size st.
Proof.
  intros stats. split; [apply getStorageStats_totalDomains|]. subst stats.
  unfold eval, getStorageStats, storage_bind, getEmailMappings, storage_get,
    storage_ret. cbn [fst snd].
  destruct (stats_fold_totals (map_to_list st)
              (mkStorageStats (length (map_to_list st).*1) 0 0%Z []))
    as (-> & -> & ->).
  simpl. rewrite length_map_to_list. split_and!; lia.
Qed.

Lemma sum_counts_foldr entries :
  sum_counts entries = foldr (λ x acc, (x.(count) + acc)%Z) 0%Z entries.
Proof.
  unfold sum_counts.
  assert (∀ a, foldl (λ sum entry, (sum + entry.(count))%Z) a entries
               = (a + foldr (λ x acc, (x.(count) + acc)%Z) 0 entries)%Z) as H.
  { induction entries as [|x l IH]; intros a; simpl; [lia|].
    rewrite IH. lia. }
  rewrite H. lia.
Qed.

Lemma sum_counts_alter (f : EmailMapping → EmailMapping) (i : nat)
    (entries : list EmailMapping) x :
  entries !! i = Some x → (f x).(count) = (x.(count) + 1)%Z →
  sum_counts (alter f i entries) = (sum_counts entries + 1)%Z.
Proof.
  rewrite !sum_counts_foldr. revert i.
  induction entries as [|y l IH]; intros [|i] Hi Hf; simplify_eq/=.
  - lia.
  - rewrite (IH i) by done. lia.
Qed.

Lemma map_to_list_insert_Some (st : DomainMappings) d old new :
  st !! d = Some old →
  ∃ rest, map_to_list st ≡ₚ (d, old) :: rest ∧
          map_to_list (<[d := new]> st) ≡ₚ (d, new) :: rest.
Proof.
  intros Hl. exists (map_to_list (delete d st)). split.
  - symmetry. by apply map_to_list_delete.
  - rewrite <- insert_delete_eq. apply map_to_list_insert, lookup_delete_eq.
Qed.

(** X3: Seeing a known address again adds one login to the statistics and
    leaves the numbers of domains and of addresses as they were. *)
Theorem getStorageStats_after_known_address (st : DomainMappings) (now : Z)
    (d e url : string) (i : nat) :
  findIndex (has_email e) (default [] (st !! d)) = Some i →
  let before := eval getStorageStats st in
  let after := eval getStorageStats (exec (saveEmailMapping now d e url) st) in
  after.(totalDomains) = before.(totalDomains) ∧
  after.(totalEmails) = before.(totalEmails) ∧
  after.(totalLogins) = (before.(totalLogins) + 1)%Z.
Proof.
  intros Hfind before after. subst before after.
  destruct (getStorageStats_totals st) as (-> & -> & -> & _).
  destruct (getStorageStats_totals (exec (saveEmailMapping now d e url) st))
    as (-> & -> & -> & _).
  rewrite saveEmailMapping_exec, Hfind.
  destruct (findIndex_Some _ _ _ Hfind) as (x & Hx & He).
  destruct (st !! d) as [old|] eqn:Hold; [|done]. simpl in *.
  set (f := λ entry, mkEmailMapping entry.(email) url now
                       (entry.(count) + 1)%Z entry.(description)).
  destruct (map_to_list_insert_Some st d old (alter f i old) Hold)
    as (rest & Hp1 & Hp2).
  rewrite map_size_insert_Some by done.
  rewrite (count_emails_perm _ _ Hp1), (count_emails_perm _ _ Hp2).
  rewrite (count_logins_perm _ _ Hp1), (count_logins_perm _ _ Hp2).
  unfold count_emails. simpl. rewrite length_alter.
  rewrite (sum_counts_alter f i old x) by done. split_and!; lia.
Qed.

Lemma getStorageStats_after_known_address_witness :
  let before := eval getStorageStats five_seen in
  let after :=
    eval getStorageStats
      (exec (saveEmailMapping 9 "example.com" "c@x.com" "https://example.com/c")
         five_seen) in
  after.(totalDomains) = before.(totalDomains) ∧
  after.(totalEmails) = before.(totalEmails) ∧
  after.(totalLogins) = (before.(totalLogins) + 1)%Z.
Proof.
  apply (getStorageStats_after_known_address five_seen 9 "example.com"
           "c@x.com" "https://example.com/c" 2).
  vm_compute. reflexivity.
Defined.

(** X4: A new address for a list with room (fewer than five records) adds one
    address and one login, and one domain when the domain was not
    there. *)
Theorem getStorageStats_after_new_address (st : DomainMappings) (now : Z)
    (d e url : string) :
  findIndex (has_email e) (default [] (st !! d)) = None →
  length (default [] (st !! d)) < 5 →
  let before := eval getStorageStats st in
  let after := eval getStorageStats (exec (saveEmailMapping now d e url) st) in
  after.(totalDomains)
  = before.(totalDomains) + (if st !! d is Some _ then 0 else 1) ∧
  after.(totalEmails) = before.(totalEmails) + 1 ∧
  after.(totalLogins) = (before.(totalLogins) + 1)%Z.
Proof.
  intros Hfind Hlen before after. subst before after.
  destruct (getStorageStats_totals st) as (-> & -> & -> & _).
  destruct (getStorageStats_totals (exec (saveEmailMapping now d e url) st))
    as (-> & -> & -> & _).
  rewrite saveEmailMapping_exec, Hfind.
  rewrite unshift_capped_fits by done.
  destruct (st !! d) as [old|] eqn:Hold; simpl in *.
  - destruct (map_to_list_insert_Some st d old
                (mkEmailMapping e url now 1 None :: old) Hold)
      as (rest & Hp1 & Hp2).
    rewrite map_size_insert_Some by done.
    rewrite (count_emails_perm _ _ Hp1), (count_emails_perm _ _ Hp2).
    rewrite (count_logins_perm _ _ Hp1), (count_logins_perm _ _ Hp2).
    unfold count_emails. simpl. rewrite !sum_counts_foldr. simpl.
    split_and!; lia.
  - pose proof (map_to_list_insert st d [mkEmailMapping e url now 1 None] Hold)
      as Hp.
    rewrite map_size_insert_None by done.
    rewrite (count_emails_perm _ _ Hp), (count_logins_perm _ _ Hp).
    unfold count_emails. simpl. rewrite !sum_counts_foldr. simpl.
    split_and!; lia.
Qed.

Lemma getStorageStats_after_new_address_witness :
  let before := eval getStorageStats sample_remote in
  let after :=
    eval getStorageStats
      (exec (saveEmailMapping 9 "example.org" "n@x.com" "https://example.org/n")
         sample_remote) in
  after.(totalDomains)
  = before.(totalDomains)
    + (if sample_remote !! "example.org" is Some _ then 0 else 1) ∧
  after.(totalEmails) = before.(totalEmails) + 1 ∧
  after.(totalLogins) = (before.(totalLogins) + 1)%Z.
Proof.
  apply (getStorageStats_after_new_address sample_remote 9 "example.org"
           "n@x.com" "https://example.org/n").
  - vm_compute. reflexivity.
  - vm_compute. lia.
Defined.

(** ** No empty list under a key *)

Lemma no_empty_lists_insert (st : DomainMappings) d entries :
  no_empty_lists st → entries ≠ [] → no_empty_lists (<[d := entries]> st).
Proof.
  intros Hst Hne d' entries' Hl.
  destruct (decide (d = d')) as [->|Hd].
  - rewrite lookup_insert_eq in Hl. by simplify_eq.
  - rewrite lookup_insert_ne in Hl by done. by eapply Hst.
Qed.

Lemma no_empty_lists_delete (st : DomainMappings) d :
  no_empty_lists st → no_empty_lists (delete d st).
Proof.
  intros Hst d' entries' Hl. apply lookup_delete_Some in Hl as [_ Hl].
  by eapply Hst.
Qed.

Lemma unshift_capped_nonempty cap x entries :
  0 < cap → unshift_capped cap x entries ≠ [].
Proof.
  intros Hcap. by destruct (unshift_capped_cons cap x entries Hcap)
    as (rest & -> & _).
Qed.

Lemma alter_found_nonempty (f : EmailMapping → EmailMapping) e i
    (entries : list EmailMapping) :
  findIndex (has_email e) entries = Some i → alter f i entries ≠ [].
Proof.
  intros (x & Hx & _)%findIndex_Some Hnil.
  apply (f_equal length) in Hnil. rewrite length_alter in Hnil.
  apply lookup_lt_Some in Hx. simpl in Hnil. lia.
Qed.

Lemma EDIT_EMAIL_exec now d oldEmail newEmail descr (st : DomainMappings) :
  exec (EDIT_EMAIL now d oldEmail newEmail descr) st =
  match st !! d with
  | Some entries =>
      match findIndex (has_email oldEmail) entries with
      | Some i =>
          <[d := alter (λ entry, mkEmailMapping newEmail entry.(apiUrl) now
                                   entry.(count)
                                   (match descr with
                                    | Some x => Some x
                                    | None => entry.(description)
                                    end)) i entries]> st
      | None => st
      end
  | None => st
  end.
Proof.
  unfold exec, EDIT_EMAIL, storage_bind, storage_get. simpl.
  destruct (st !! d) as [entries|]; simpl; [|done].
  by destruct (findIndex _ entries).
Qed.

Lemma EDIT_DOMAIN_exec oldDomain newDomain (st : DomainMappings) :
  exec (EDIT_DOMAIN oldDomain newDomain) st =
  match st !! oldDomain with
  | Some entries => delete oldDomain (<[newDomain := entries]> st)
  | None => st
  end.
Proof.
  unfold exec, EDIT_DOMAIN, storage_bind, storage_get. simpl.
  by destruct (st !! oldDomain).
Qed.

Lemma DELETE_DOMAIN_exec d (st : DomainMappings) :
  exec (DELETE_DOMAIN d) st = delete d st.
Proof.
  unfold exec, DELETE_DOMAIN, storage_bind, storage_get. simpl.
  destruct (st !! d) eqn:Hl; simpl; [done|]. by rewrite delete_id.
Qed.

(** X5: A store in which no key holds an empty list stays so under every
    operation of storage.ts and every handler of the background script
    that writes the store; its statistics then count at least one address
    per domain. *)
Theorem no_empty_lists_kept (st : DomainMappings) :
  no_empty_lists st →
  (∀ now d e url, no_empty_lists (exec (saveEmailMapping now d e url) st)) ∧
  (∀ now d e url, no_empty_lists (exec (storeEmailMapping now d e url) st)) ∧
  (∀ e d ts url, no_empty_lists (exec (LOGIN_DETECTED e d ts url) st)) ∧
  (∀ now d e, no_empty_lists (exec (ADD_EMAIL now d e) st)) ∧
  (∀ d e, no_empty_lists (exec (DELETE_EMAIL d e) st)) ∧
  (∀ d, no_empty_lists (exec (DELETE_DOMAIN d) st)) ∧
  (∀ d, no_empty_lists (exec (clearDomainMappings d) st)) ∧
  (∀ d d', no_empty_lists (exec (EDIT_DOMAIN d d') st)) ∧
  (∀ now d e e' descr, no_empty_lists (exec (EDIT_EMAIL now d e e' descr) st)) ∧
  (eval getStorageStats st).(totalDomains)
  ≤ (eval getStorageStats st).(totalEmails).
Proof.
  intros Hst. split_and!.
  - intros. rewrite saveEmailMapping_exec.
    apply no_empty_lists_insert; [done|].
    destruct (findIndex _ _) eqn:Hf.
    + by eapply alter_found_nonempty.
    + apply unshift_capped_nonempty. lia.
  - intros. rewrite storeEmailMapping_exec.
    destruct (findIndex _ _) eqn:Hf; [done|].
    apply no_empty_lists_insert; [done|]. apply unshift_capped_nonempty. lia.
  - intros. rewrite LOGIN_DETECTED_exec.
    apply no_empty_lists_insert; [done|].
    destruct (findIndex _ _) eqn:Hf.
    + by eapply alter_found_nonempty.
    + apply unshift_capped_nonempty. lia.
  - intros. rewrite ADD_EMAIL_exec.
    destruct (findIndex _ _) eqn:Hf; [done|].
    apply no_empty_lists_insert; [done|]. apply unshift_capped_nonempty. lia.
  - intros. rewrite DELETE_EMAIL_exec.
    destruct (st !! d) as [entries|]; [|done]. cbv zeta.
    case_decide; [by apply no_empty_lists_delete|].
    by apply no_empty_lists_insert.
  - intros. rewrite DELETE_DOMAIN_exec. by apply no_empty_lists_delete.
  - intros. by apply no_empty_lists_delete.
  - intros. rewrite EDIT_DOMAIN_exec.
    destruct (st !! d) as [entries|] eqn:Hl; [|done].
    apply no_empty_lists_delete, no_empty_lists_insert; [done|].
    by eapply Hst.
  - intros. rewrite EDIT_EMAIL_exec.
    destruct (st !! d) as [entries|] eqn:Hl; [|done].
    destruct (findIndex _ _) eqn:Hf; [|done].
    apply no_empty_lists_insert; [done|]. by eapply alter_found_nonempty.
  - destruct (getStorageStats_totals st) as (-> & -> & _).
    rewrite <- length_map_to_list.
    assert (Forall (λ kv, kv.2 ≠ []) (map_to_list st)) as Hall.
    { apply Forall_forall. intros [d entries] Hin.
      apply elem_of_map_to_list in Hin. by eapply Hst. }
    unfold count_emails.
    induction Hall as [|[d entries] l Hne _ IH]; simpl; [lia|].
    destruct entries; [done|]. simpl in *. lia.
Qed.

Lemma no_empty_lists_kept_witness :
  (∀ now d e url, no_empty_lists (exec (saveEmailMapping now d e url) sample_remote)) ∧
  (∀ now d e url, no_empty_lists (exec (storeEmailMapping now d e url) sample_remote)) ∧
  (∀ e d ts url, no_empty_lists (exec (LOGIN_DETECTED e d ts url) sample_remote)) ∧
  (∀ now d e, no_empty_lists (exec (ADD_EMAIL now d e) sample_remote)) ∧
  (∀ d e, no_empty_lists (exec (DELETE_EMAIL d e) sample_remote)) ∧
  (∀ d, no_empty_lists (exec (DELETE_DOMAIN d) sample_remote)) ∧
  (∀ d, no_empty_lists (exec (clearDomainMappings d) sample_remote)) ∧
  (∀ d d', no_empty_lists (exec (EDIT_DOMAIN d d') sample_remote)) ∧
  (∀ now d e e' descr,
     no_empty_lists (exec (EDIT_EMAIL now d e e' descr) sample_remote)) ∧
  (eval getStorageStats sample_remote).(totalDomains)
  ≤ (eval getStorageStats sample_remote).(totalEmails).
Proof.
  apply (no_empty_lists_kept sample_remote).
  intros d entries H. unfold sample_remote in H.
  apply lookup_singleton_Some in H as [_ <-]. discriminate.
Defined.

(** ** Removing, renaming *)

(** X7: DELETE_EMAIL removes every record of the address, so a second
    request for the same address leaves the store as the first one left
    it. *)
Theorem DELETE_EMAIL_twice (st : DomainMappings) (d e : string) :
  let st1 := exec (DELETE_EMAIL d e) st in
  find (has_email e) (default [] (st1 !! d)) = None ∧
  exec (DELETE_EMAIL d e) st1 = st1.
Proof.
  intros st1. subst st1. rewrite !DELETE_EMAIL_exec.
  destruct (st !! d) as [entries|] eqn:Hl; cbv zeta.
  - case_decide as Hk.
    + rewrite lookup_delete_eq. done.
    + rewrite lookup_insert_eq. cbn [default]. split.
      * apply find_None, Forall_forall. intros x Hx.
        apply list_elem_of_filter in Hx as [Hx _]. unfold has_email. tauto.
      * rewrite list_filter_filter.
        erewrite (list_filter_iff _ (λ x, x.(email) ≠ e)) by tauto.
        rewrite decide_False by done. by rewrite insert_insert_eq.
  - rewrite Hl. done.
Qed.

(** X8: EDIT_DOMAIN: for a domain the store holds, the records move to the
    new name, replacing whatever list the new name held, and the old name
    is gone; when the new name is the old name the domain is deleted and
    the answer is still success.  For a domain the store does not hold
    nothing changes and the answer is failure. *)
Theorem EDIT_DOMAIN_moves_or_deletes (st : DomainMappings)
    (oldDomain newDomain : string) :
  let reply := eval (EDIT_DOMAIN oldDomain newDomain) st in
  let st' := exec (EDIT_DOMAIN oldDomain newDomain) st in
  (reply.(success) = true ↔ is_Some (st !! oldDomain)) ∧
  (st !! oldDomain = None → st' = st) ∧
  (∀ entries, st !! oldDomain = Some entries →
     st' !! oldDomain = None ∧
     (oldDomain ≠ newDomain → st' !! newDomain = Some entries) ∧
     (∀ d, d ≠ oldDomain → d ≠ newDomain → st' !! d = st !! d)).
Proof.
  intros reply st'. subst reply st'. rewrite EDIT_DOMAIN_exec.
  unfold eval, EDIT_DOMAIN, storage_bind, storage_get. simpl.
  destruct (st !! oldDomain) as [entries|] eqn:Hl; simpl.
  - split_and!; [split; [by eexists|done] | done |].
    intros ? [= <-]. split_and!.
    + apply lookup_delete_eq.
    + intros Hne. by rewrite lookup_delete_ne, lookup_insert_eq.
    + intros d H1 H2. by rewrite lookup_delete_ne, lookup_insert_ne.
  - split_and!; [split; [done|by intros [? ?]] | done | done].
Qed.

Lemma elem_of_list_insert_inv {A} (l : list A) i x z :
  z ∈ <[i := x]> l → z = x ∨ z ∈ l.
Proof.
  revert i. induction l as [|y l IH]; intros [|i]; simpl;
    rewrite ?elem_of_cons; try tauto.
  intros [->|H]; [tauto|]. apply IH in H. tauto.
Qed.

Lemma NoDup_insert_fresh {A} (l : list A) i x :
  NoDup l → x ∉ l → NoDup (<[i := x]> l).
Proof.
  revert i. induction l as [|y l IH]; intros [|i] Hnd Hx; simpl; try done;
    apply NoDup_cons in Hnd as [Hy Hnd]; apply not_elem_of_cons in Hx as [Hxy Hx].
  - by apply NoDup_cons.
  - apply NoDup_cons. split; [|by apply IH].
    intros [->|H]%elem_of_list_insert_inv; done.
Qed.

Lemma emails_alter_rename (f : EmailMapping → EmailMapping) (i : nat)
    (entries : list EmailMapping) new :
  (∀ x, (f x).(email) = new) →
  i < length entries →
  email <$> alter f i entries = <[i := new]> (email <$> entries).
Proof.
  intros Hf. revert i. induction entries as [|y l IH]; intros [|i] Hi;
    simpl in *; try lia.
  - by rewrite Hf.
  - f_equal. apply IH. lia.
Qed.

(** X9: EDIT_EMAIL keeps the addresses of a list pairwise distinct exactly
    when the new address is the old one or is not yet in the list; it
    never changes the length of the list. *)
Theorem EDIT_EMAIL_unique_iff (st : DomainMappings) (now : Z)
    (d oldEmail newEmail : string) (descr : option string)
    (entries : list EmailMapping) (i : nat) :
  unique_emails st → st !! d = Some entries →
  findIndex (has_email oldEmail) entries = Some i →
  let st' := exec (EDIT_EMAIL now d oldEmail newEmail descr) st in
  (unique_emails st' ↔
   newEmail = oldEmail ∨ newEmail ∉ email <$> entries) ∧
  length (st' !!! d) = length entries.
Proof.
  intros Hst Hl Hfind st'. subst st'.
  rewrite EDIT_EMAIL_exec, Hl, Hfind.
  destruct (findIndex_Some _ _ _ Hfind) as (x & Hx & He).
  pose proof (lookup_lt_Some _ _ _ Hx) as Hi.
  set (f := λ entry, mkEmailMapping newEmail entry.(apiUrl) now entry.(count)
                       (match descr with
                        | Some y => Some y
                        | None => entry.(description)
                        end)).
  assert (email <$> alter f i entries = <[i := newEmail]> (email <$> entries))
    as Hemails by by apply emails_alter_rename.
  assert ((email <$> entries) !! i = Some oldEmail) as Hold.
  { by rewrite list_lookup_fmap, Hx, <- He. }
  split; [|by rewrite lookup_total_insert_eq, length_alter].
  split.
  - intros Hu.
    destruct (decide (newEmail = oldEmail)) as [|Hne]; [by left|right].
    intros (j & Hj)%list_elem_of_lookup_1.
    assert (j ≠ i) as Hji by (intros ->; congruence).
    specialize (Hu d (alter f i entries) (lookup_insert_eq _ _ _)).
    rewrite Hemails in Hu.
    assert (i = j); [|done].
    eapply (NoDup_lookup _ i j newEmail Hu).
    + apply list_lookup_insert_eq. by rewrite length_fmap.
    + by rewrite list_lookup_insert_ne.
  - intros Hcond. apply unique_emails_insert; [done|].
    rewrite Hemails. destruct Hcond as [->|Hfresh].
    + rewrite list_insert_id by done. by eapply Hst.
    + apply NoDup_insert_fresh; [by eapply Hst | done].
Qed.

Lemma EDIT_EMAIL_unique_iff_witness :
  let st' :=
    exec (EDIT_EMAIL 200 "example.com" "e1@x.com" "e3@x.com" None)
      sample_local in
  (unique_emails st' ↔
   "e3@x.com" = "e1@x.com" ∨
   "e3@x.com" ∉ email <$> [sample "e1@x.com" 100; sample "e2@x.com" 70]) ∧
  length (st' !!! "example.com")
  = length [sample "e1@x.com" 100; sample "e2@x.com" 70].
Proof.
  apply (EDIT_EMAIL_unique_iff sample_local 200 "example.com" "e1@x.com"
           "e3@x.com" None [sample "e1@x.com" 100; sample "e2@x.com" 70] 0).
  - intros d entries H. unfold sample_local in H.
    apply lookup_singleton_Some in H as [_ <-].
    apply (bool_decide_unpack _). vm_compute. exact I.
  - vm_compute. reflexivity.
  - vm_compute. reflexivity.
Defined.

(** ** Sync merge: the three strategies *)

Lemma merge_email_resolve strategy e acc l :
  find (has_email e) (merge_email strategy acc l)
  = resolve_step strategy e (find (has_email e) acc) l.
Proof.
  destruct strategy; [| |apply merge_email_find];
    unfold merge_email, resolve_step, find;
    (destruct (decide (l.(email) = e)) as [He|He];
     [subst e;
      destruct (list_find (has_email l.(email)) acc) as [[i r]|] eqn:Hl; simpl;
      [|by erewrite list_find_snoc_new]
     |destruct (list_find (has_email l.(email)) acc) as [[i r]|] eqn:Hl;
      [pose proof Hl as (Hi & Hr & _)%list_find_Some; unfold has_email in Hr
      |by rewrite list_find_snoc_other]]).
  - by erewrite list_find_insert_found.
  - erewrite list_find_insert_other; [done..| |]; unfold has_email; congruence.
  - by rewrite Hl.
  - done.
Qed.

Lemma merge_emails_resolve strategy e ls acc :
  find (has_email e) (foldl (merge_email strategy) acc ls)
  = foldl (resolve_step strategy e) (find (has_email e) acc) ls.
Proof.
  revert acc. induction ls as [|l ls IH]; intros acc; simpl; [done|].
  by rewrite IH, merge_email_resolve.
Qed.

Lemma resolve_fold_filter strategy e ls cur :
  foldl (resolve_step strategy e) cur ls
  = foldl (resolve_step strategy e) cur (filter (has_email e) ls).
Proof.
  revert cur. induction ls as [|l ls IH]; intros cur; [done|].
  destruct (decide (has_email e l)) as [He|He].
  - rewrite filter_cons_True by done. simpl. apply IH.
  - rewrite filter_cons_False by done. simpl. rewrite <- IH. f_equal.
    unfold has_email in He.
    destruct strategy; unfold resolve_step, latest_step;
      by rewrite decide_False.
Qed.

(** X10: For an address that the local list of a domain holds once, as [l],
    and the remote list holds as [r]: under LOCAL_WINS the merged record
    is [l], under REMOTE_WINS it is [r], and under LATEST_WINS it is [l]
    when [l] is strictly more recent and [r] otherwise. *)
Theorem smartMerge_strategies (localData remoteData : DomainMappings)
    (d e : string) (ls rs : list EmailMapping) (l r : EmailMapping) :
  localData !! d = Some ls → filter (has_email e) ls = [l] →
  remoteData !! d = Some rs → find (has_email e) rs = Some r →
  find (has_email e) (smartMerge localData remoteData LOCAL_WINS !!! d)
  = Some l ∧
  find (has_email e) (smartMerge localData remoteData REMOTE_WINS !!! d)
  = Some r ∧
  find (has_email e) (smartMerge localData remoteData LATEST_WINS !!! d)
  = Some (if decide (r.(timestamp) < l.(timestamp))%Z then l else r).
Proof.
  intros Hls Huniq Hrs Hr.
  assert (l.(email) = e) as Hel.
  { assert (l ∈ filter (has_email e) ls) as Hf by (rewrite Huniq; by left).
    by apply list_elem_of_filter in Hf as [? ?]. }
  assert (∀ strategy,
    find (has_email e) (smartMerge localData remoteData strategy !!! d)
    = resolve_step strategy e (Some r) l) as Hall.
  { intros strategy.
    rewrite lookup_total_alt, smartMerge_lookup, Hls, Hrs. simpl.
    rewrite merge_emails_resolve, Hr, resolve_fold_filter, Huniq. done. }
  rewrite !Hall. unfold resolve_step, latest_step.
  rewrite !decide_True by done. split_and!; [done..|]. by case_decide.
Qed.

Lemma smartMerge_strategies_witness :
  find (has_email "e1@x.com")
    (smartMerge sample_local sample_remote LOCAL_WINS !!! "example.com")
  = Some (sample "e1@x.com" 100) ∧
  find (has_email "e1@x.com")
    (smartMerge sample_local sample_remote REMOTE_WINS !!! "example.com")
  = Some (sample "e1@x.com" 50) ∧
  find (has_email "e1@x.com")
    (smartMerge sample_local sample_remote LATEST_WINS !!! "example.com")
  = Some (if decide ((sample "e1@x.com" 50).(timestamp)
                     < (sample "e1@x.com" 100).(timestamp))%Z
          then sample "e1@x.com" 100 else sample "e1@x.com" 50).
Proof.
  apply (smartMerge_strategies sample_local sample_remote "example.com"
           "e1@x.com" [sample "e1@x.com" 100; sample "e2@x.com" 70]
           [sample "e1@x.com" 50]); vm_compute; reflexivity.
Defined.

(** ** Sync merge: what it keeps *)

Lemma merge_email_emails strategy acc l :
  email <$> merge_email strategy acc l = email <$> acc ∧
    l.(email) ∈ email <$> acc
  ∨ email <$> merge_email strategy acc l = (email <$> acc) ++ [l.(email)] ∧
    l.(email) ∉ email <$> acc.
Proof.
  unfold merge_email.
  destruct (list_find _ acc) as [[i r]|] eqn:Hfind.
  - left. apply list_find_Some in Hfind as (Hi & Hr & _). unfold has_email in Hr.
    assert (email <$> <[i := l]> acc = email <$> acc) as Heq.
    { rewrite list_fmap_insert. apply list_insert_id.
      by rewrite list_lookup_fmap, Hi, <- Hr. }
    split.
    + destruct strategy; try case_decide; by rewrite ?Heq.
    + apply list_elem_of_fmap. exists r. split; [done|].
      by eapply list_elem_of_lookup_2.
  - right. rewrite fmap_app. split; [done|].
    apply find_has_email_None. unfold find. by rewrite Hfind.
Qed.

Lemma merge_emails_emails strategy ls acc :
  (email <$> acc) `prefix_of`
    (email <$> foldl (merge_email strategy) acc ls) ∧
  ∀ e, e ∈ email <$> foldl (merge_email strategy) acc ls ↔
       e ∈ email <$> acc ∨ e ∈ email <$> ls.
Proof.
  revert acc. induction ls as [|l ls IH]; intros acc; cbn [foldl].
  - split; [done|]. intros e. rewrite fmap_nil, elem_of_nil. tauto.
  - destruct (IH (merge_email strategy acc l)) as [Hpre Hmem]. split.
    + etrans; [|exact Hpre].
      destruct (merge_email_emails strategy acc l) as [[-> _]|[-> _]];
        [done | by apply prefix_app_r].
    + intros e. rewrite Hmem, fmap_cons, elem_of_cons.
      destruct (merge_email_emails strategy acc l) as [[-> Hin]|[-> Hnot]].
      * split; [tauto|]. intros [?|[->|?]]; tauto.
      * rewrite elem_of_app, list_elem_of_singleton. tauto.
Qed.

(** X11: Whatever the strategy, the merge neither loses nor invents an
    address: the merged object has the domains of the local and of the
    remote object; for each domain its addresses are the remote ones
    followed by local ones the remote list did not have, so an address is
    in the merged list exactly when it is in the local or in the remote
    list; and an empty local object gives back the remote object. *)
Theorem smartMerge_addresses (localData remoteData : DomainMappings)
    (strategy : MergeStrategy) :
  dom (smartMerge localData remoteData strategy)
  = dom localData ∪ dom remoteData ∧
  (∀ d, (email <$> (remoteData !!! d)) `prefix_of`
          (email <$> (smartMerge localData remoteData strategy !!! d))) ∧
  (∀ d e, e ∈ email <$> (smartMerge localData remoteData strategy !!! d) ↔
          e ∈ email <$> (localData !!! d) ∨ e ∈ email <$> (remoteData !!! d)) ∧
  smartMerge ∅ remoteData strategy = remoteData.
Proof.
  split_and!.
  - apply set_eq. intros d. rewrite elem_of_union, !elem_of_dom.
    rewrite smartMerge_lookup.
    destruct (localData !! d) as [ls|], (remoteData !! d) as [rs|];
      simpl; split; intros H; eauto; try tauto;
      destruct H as [[? ?]|[? ?]]; done.
  - intros d. rewrite !lookup_total_alt, smartMerge_lookup.
    destruct (localData !! d) as [ls|]; simpl; [|done].
    apply merge_emails_emails.
  - intros d e. rewrite !lookup_total_alt, smartMerge_lookup.
    destruct (localData !! d) as [ls|]; simpl.
    + destruct (merge_emails_emails strategy ls (default [] (remoteData !! d)))
        as [_ ->]. tauto.
    + rewrite elem_of_nil. tauto.
  - apply map_eq. intros d. by rewrite smartMerge_lookup, lookup_empty.
Qed.

Lemma merge_email_noop_latest acc l m :
  find (has_email l.(email)) acc = Some m →
  (l.(timestamp) ≤ m.(timestamp))%Z →
  merge_email LATEST_WINS acc l = acc.
Proof.
  unfold find, merge_email.
  destruct (list_find _ acc) as [[i r]|]; intros; simplify_eq/=.
  by rewrite decide_False by lia.
Qed.

Lemma merge_email_noop_remote acc l :
  l.(email) ∈ email <$> acc → merge_email REMOTE_WINS acc l = acc.
Proof.
  intros Hin. unfold merge_email.
  destruct (list_find _ acc) as [[i r]|] eqn:Hfind; [done|].
  exfalso. revert Hin. apply find_has_email_None. unfold find. by rewrite Hfind.
Qed.

(** X12: Merging the same local object a second time changes nothing, under
    LATEST_WINS and under REMOTE_WINS. *)
Theorem smartMerge_again (localData remoteData : DomainMappings)
    (strategy : MergeStrategy) :
  strategy ≠ LOCAL_WINS →
  smartMerge localData (smartMerge localData remoteData strategy) strategy
  = smartMerge localData remoteData strategy.
Proof.
  intros Hs. apply map_eq. intros d. rewrite !smartMerge_lookup.
  destruct (localData !! d) as [ls|] eqn:Hl; [|done]. simpl. f_equal.
  set (acc := foldl (merge_email strategy) (default [] (remoteData !! d)) ls).
  assert (∀ sub, sub ⊆ ls → foldl (merge_email strategy) acc sub = acc) as Hsub.
  { induction sub as [|l sub IH]; intros Hincl; simpl; [done|].
    assert (l ∈ ls) as Hin by (apply Hincl; by left).
    assert (merge_email strategy acc l = acc) as ->.
    { destruct strategy; [done| |].
      - apply merge_email_noop_remote. subst acc.
        apply merge_emails_emails. right.
        apply list_elem_of_fmap. by exists l.
      - pose proof (merge_emails_find l.(email) ls (default [] (remoteData !! d)))
          as Hfind. fold acc in Hfind.
        destruct (find (has_email l.(email)) (default [] (remoteData !! d)))
          as [r|].
        + destruct (latest_fold_Some l.(email) ls r) as (m & Hm & _ & Hall & _).
          rewrite Hm in Hfind.
          apply (merge_email_noop_latest _ _ m Hfind). by apply Hall.
        + destruct (latest_fold_None l.(email) ls l Hin eq_refl)
            as (m & Hm & _ & _ & Hall).
          rewrite Hm in Hfind.
          apply (merge_email_noop_latest _ _ m Hfind). by apply Hall. }
    apply IH. intros x Hx. apply Hincl. by right. }
  by apply Hsub.
Qed.

Lemma smartMerge_again_witness :
  smartMerge sample_local (smartMerge sample_local sample_remote LATEST_WINS)
    LATEST_WINS
  = smartMerge sample_local sample_remote LATEST_WINS.
Proof.
  apply (smartMerge_again sample_local sample_remote LATEST_WINS).
  discriminate.
Defined.

(** ** The fingerprint hash *)

Lemma toInt32_range z : (- 2 ^ 31 ≤ toInt32 z < 2 ^ 31)%Z.
Proof.
  unfold toInt32. pose proof (Z.mod_pos_bound z (2 ^ 32)).
  destruct (Z.ltb_spec (z mod 2 ^ 32) (2 ^ 31)); lia.
Qed.

Lemma toInt32_mod z : (toInt32 z mod 2 ^ 32 = z mod 2 ^ 32)%Z.
Proof.
  unfold toInt32. destruct (Z.ltb_spec (z mod 2 ^ 32) (2 ^ 31)).
  - apply Z.mod_mod. lia.
  - replace (z mod 2 ^ 32 - 2 ^ 32)%Z
      with (z mod 2 ^ 32 + (-1) * 2 ^ 32)%Z by lia.
    rewrite Z.mod_add by lia. apply Z.mod_mod. lia.
Qed.

Lemma toInt32_ext a b :
  (a mod 2 ^ 32 = b mod 2 ^ 32)%Z → toInt32 a = toInt32 b.
Proof. intros H. unfold toInt32. by rewrite H. Qed.

Lemma toInt32_idemp z : toInt32 (toInt32 z) = toInt32 z.
Proof. apply toInt32_ext, toInt32_mod. Qed.

Lemma hash_step_31 hash c :
  hash_step hash c = toInt32 (31 * hash + charCode c).
Proof.
  unfold hash_step, and32, shl32. rewrite Z.land_diag.
  apply toInt32_ext.
  rewrite <- Z.add_mod_idemp_l, <- Zminus_mod_idemp_l by lia.
  rewrite toInt32_mod.
  rewrite <- Z.mul_mod_idemp_l, toInt32_mod, Z.mul_mod_idemp_l by lia.
  rewrite Zminus_mod_idemp_l, Z.add_mod_idemp_l by lia.
  f_equal. lia.
Qed.

Lemma hash_loop_poly31 str h p :
  h = toInt32 p → hash_loop h str = toInt32 (poly31 p str).
Proof.
  revert h p. induction str as [|c str IH]; intros h p ->; simpl; [done|].
  apply IH. rewrite hash_step_31. apply toInt32_ext.
  rewrite <- Z.add_mod_idemp_l, <- Z.mul_mod_idemp_r by lia.
  rewrite toInt32_mod.
  by rewrite Z.mul_mod_idemp_r, Z.add_mod_idemp_l by lia.
Qed.

(** X14: [simpleHash] is the absolute value of the polynomial in 31 of the
    character codes, taken as a signed 32-bit integer; it lies between 0
    and 2^31 (2^31 included, the absolute value of the least 32-bit
    integer), and the empty string hashes to 0. *)
Theorem simpleHash_spec (str : string) :
  simpleHash str = Z.abs (toInt32 (poly31 0 str)) ∧
  (0 ≤ simpleHash str ≤ 2 ^ 31)%Z ∧
  simpleHash EmptyString = 0%Z.
Proof.
  unfold simpleHash. rewrite (hash_loop_poly31 str 0 0) by done.
  pose proof (toInt32_range (poly31 0 str)). split_and!; [done|lia|lia|done].
Qed.

(** ** The normal form of a hostname *)

(** X15: The normal form is in lower case, is cut from the end of the
    lower-cased hostname, and has at most three labels. *)
Theorem getRootDomain_shape (tlds : list string) (h : string) :
  let r := getRootDomainWith tlds h in
  Js.toLowerCase r = r ∧
  (∃ pre, Js.toLowerCase h = pre +:+ r) ∧
  length (Js.split "." r) ≤ 3.
Proof.
  intros r. subst r. split_and!.
  - apply getRootDomainWith_lower.
  - apply getRootDomainWith_lower_suffix.
  - unfold getRootDomainWith. case_decide as Hempty; [subst; simpl; lia|].
    set (clean := Js.strip_www (Js.toLowerCase h)).
    pose proof (split_nonempty "." clean) as Hne.
    pose proof (split_sep_free "." clean) as Hfree.
    case_decide as Hlen; [lia|].
    assert (∀ k, 0 < k → k ≤ 3 →
              length (Js.split "." (Js.join "."
                       (Js.slice_last k (Js.split "." clean)))) ≤ 3) as Hk.
    { intros k Hk0 Hk3. rewrite split_join.
      - rewrite slice_last_length; lia.
      - intros Hnil. apply (f_equal length) in Hnil.
        rewrite slice_last_length in Hnil by lia. simpl in Hnil. lia.
      - by apply Forall_drop. }
    case_bool_decide; apply Hk; lia.
Qed.

Lemma toLowerCase_nil_iff h : Js.toLowerCase h = EmptyString ↔ h = EmptyString.
Proof. by destruct h. Qed.

(** X16: The normalizer does not look at the case of its input, and one
    leading [www.] in front of a hostname that has none does not change
    the result. *)
Theorem getRootDomain_case_and_www (tlds : list string) (h : string) :
  getRootDomainWith tlds (Js.toLowerCase h) = getRootDomainWith tlds h ∧
  (Js.startsWith "www." (Js.toLowerCase h) = false →
   getRootDomainWith tlds ("www." +:+ h) = getRootDomainWith tlds h ∧
   getRootDomainWith tlds ("WWW." +:+ h) = getRootDomainWith tlds h).
Proof.
  split.
  - unfold getRootDomainWith. rewrite toLowerCase_idemp.
    destruct (decide (h = EmptyString)) as [->|Hne]; [done|].
    by rewrite decide_False by (by rewrite toLowerCase_nil_iff).
  - intros Hwww.
    assert (∀ pre, Js.toLowerCase pre = "www." →
              getRootDomainWith tlds (pre +:+ h) = getRootDomainWith tlds h)
      as Hpre.
    { intros pre Hp. unfold getRootDomainWith.
      assert (pre +:+ h ≠ EmptyString) as Hne.
      { intros Hnil. apply (f_equal Js.toLowerCase) in Hnil.
        rewrite toLowerCase_app, Hp in Hnil. discriminate. }
      rewrite (decide_False _ _ Hne), toLowerCase_app, Hp.
      change (Js.strip_www ("www." +:+ Js.toLowerCase h))
        with (Js.toLowerCase h).
      assert (Js.strip_www (Js.toLowerCase h) = Js.toLowerCase h) as ->
        by (unfold Js.strip_www; by rewrite Hwww).
      by destruct (decide (h = EmptyString)) as [->|Hh]. }
    split; by apply Hpre.
Qed.

Lemma getRootDomain_case_and_www_witness :
  getRootDomainWith separateTlds ("www." +:+ "Login.Example.com")
  = getRootDomainWith separateTlds "Login.Example.com" ∧
  getRootDomainWith separateTlds ("WWW." +:+ "Login.Example.com")
  = getRootDomainWith separateTlds "Login.Example.com".
Proof.
  apply (getRootDomain_case_and_www separateTlds "Login.Example.com").
  vm_compute. reflexivity.
Defined.

Lemma toLowerCase_join ps :
  Forall (λ p, Js.toLowerCase p = p) ps →
  Js.toLowerCase (Js.join "." ps) = Js.join "." ps.
Proof.
  induction 1 as [|p ps Hp Hps IH]; [done|].
  destruct ps as [|q ps]; [done|].
  change (Js.join "." (p :: q :: ps))
    with (p +:+ String "." (Js.join "." (q :: ps))).
  rewrite toLowerCase_app.
  change (Js.toLowerCase (String "." (Js.join "." (q :: ps))))
    with (String "." (Js.toLowerCase (Js.join "." (q :: ps)))).
  by rewrite Hp, IH.
Qed.

Lemma startsWith_cons a p b s :
  Js.startsWith (String a p) (String b s) = Ascii.eqb a b && Js.startsWith p s.
Proof. reflexivity. Qed.

Lemma startsWith_dotted p s t :
  Js.has_char "." p = false → Js.has_char "." s = false →
  Js.startsWith (p +:+ ".") (s +:+ String "." t) = String.eqb p s.
Proof.
  revert s. induction p as [|a p IH]; intros [|c s] Hp Hs.
  - done.
  - simpl in Hs. apply orb_false_iff in Hs as [Hc _].
    rewrite append_nil_l, append_cons, startsWith_cons.
    by rewrite Ascii.eqb_sym, Hc.
  - simpl in Hp. apply orb_false_iff in Hp as [Ha _].
    rewrite append_cons, append_nil_l, startsWith_cons. by rewrite Ha.
  - simpl in Hp, Hs.
    apply orb_false_iff in Hp as [_ Hp]. apply orb_false_iff in Hs as [_ Hs].
    rewrite !append_cons, startsWith_cons, IH by done. done.
Qed.

Lemma slice_last_app {A} n (xs ys : list A) :
  length ys = n → Js.slice_last n (xs ++ ys) = ys.
Proof.
  intros <-. unfold Js.slice_last. rewrite length_app.
  replace (length xs + length ys - length ys) with (length xs) by lia.
  by rewrite drop_app_length.
Qed.

(** The normalizer on a hostname given by what is left of it once it is
    in lower case and without its leading [www.]. *)
Lemma getRootDomainWith_clean tlds h qs :
  h ≠ EmptyString → qs ≠ [] → Forall (λ p, Js.has_char "." p = false) qs →
  Js.strip_www (Js.toLowerCase h) = Js.join "." qs →
  getRootDomainWith tlds h =
    if decide (length qs ≤ 2) then Js.join "." qs
    else if bool_decide (Js.join "." (Js.slice_last 2 qs) ∈ tlds)
         then Js.join "." (Js.slice_last 3 qs)
         else Js.join "." (Js.slice_last 2 qs).
Proof.
  intros Hh Hne Hfree Hclean. unfold getRootDomainWith.
  rewrite decide_False by done. rewrite Hclean. by rewrite split_join.
Qed.

(** The cleaned form of a hostname made of labels: a first label [www]
    goes away when another label follows, and nothing else changes. *)
Lemma strip_www_labels ps :
  Forall label ps → 2 ≤ length ps →
  Js.strip_www (Js.toLowerCase (Js.join "." ps))
  = Js.join "." (if decide (head ps = Some "www") then tail ps else ps).
Proof.
  intros Hlab Hlen.
  rewrite toLowerCase_join by (eapply Forall_impl; [done|]; by intros ? [_ ?]).
  destruct ps as [|s [|q ps]]; simpl in Hlen; try lia.
  apply Forall_cons in Hlab as [[Hs _] _].
  change (Js.join "." (s :: q :: ps))
    with (s +:+ String "." (Js.join "." (q :: ps))).
  unfold Js.strip_www.
  change "www." with ("www" +:+ ".").
  rewrite startsWith_dotted by done.
  destruct (String.eqb_spec "www" s) as [<-|Hne].
  - by rewrite decide_True.
  - rewrite decide_False; [done|]. simpl. congruence.
Qed.

Lemma getRootDomain_collapse_cases (tlds : list string)
    (subs : list string) (a b c : string) :
  Forall label subs → label a → label b → label c →
  (Js.join "." [a; b] ∉ tlds → (subs = [] → a ≠ "www") →
   getRootDomainWith tlds (Js.join "." (subs ++ [a; b])) = Js.join "." [a; b]) ∧
  (Js.join "." [a; b] ∈ tlds → (subs = [] → c ≠ "www") →
   getRootDomainWith tlds (Js.join "." (subs ++ [c; a; b]))
   = Js.join "." [c; a; b]).
Proof.
  intros Hsubs Ha Hb Hc.
  assert (∀ ps : list string, 2 ≤ length ps →
            Js.join "." ps ≠ EmptyString) as Hnonnil.
  { intros [|s [|q ps]] Hlen; simpl in Hlen; try lia.
    change (Js.join "." (s :: q :: ps))
      with (s +:+ String "." (Js.join "." (q :: ps))).
    by destruct s. }
  assert (∀ ps, Forall label ps →
            Forall (λ p, Js.has_char "." p = false) ps) as Hfree.
  { intros ps Hps. eapply Forall_impl; [done|]. by intros ? [? _]. }
  assert (∀ (front tl : list string),
            Forall label (front ++ tl) → 2 ≤ length tl →
            (front = [] → head tl ≠ Some "www") →
            ∃ front', Forall label (front' ++ tl) ∧
              Js.strip_www (Js.toLowerCase (Js.join "." (front ++ tl)))
              = Js.join "." (front' ++ tl)) as Hstrip.
  { intros front tl Hall Hlen Hwww.
    rewrite strip_www_labels by (rewrite ?length_app; done || lia).
    case_decide as Hhead.
    - destruct front as [|s front']; [by specialize (Hwww eq_refl)|].
      exists front'. split; [|done]. by apply Forall_cons in Hall as [_ ?].
    - by exists front. }
  split.
  - intros Htld Hwww.
    destruct (Hstrip subs [a; b]) as (front & Hall & Hclean).
    { apply Forall_app. split; [done|]. rewrite !Forall_cons, Forall_nil. tauto. }
    { simpl. lia. }
    { intros Hnil [= Ha']. by apply Hwww. }
    assert (Js.join "." (subs ++ [a; b]) ≠ EmptyString) as Hh
      by (apply Hnonnil; rewrite length_app; simpl; lia).
    assert (front ++ [a; b] ≠ []) as Hq by (by destruct front).
    rewrite (getRootDomainWith_clean tlds _ _ Hh Hq (Hfree _ Hall) Hclean).
    rewrite (slice_last_app 2 front [a; b]) by done.
    rewrite bool_decide_false by done.
    case_decide as Hlen; [|done].
    rewrite length_app in Hlen. simpl in Hlen.
    by destruct front; [|simpl in Hlen; lia].
  - intros Htld Hwww.
    destruct (Hstrip subs [c; a; b]) as (front & Hall & Hclean).
    { apply Forall_app. split; [done|]. rewrite !Forall_cons, Forall_nil. tauto. }
    { simpl. lia. }
    { intros Hnil [= Hc']. by apply Hwww. }
    assert (Js.join "." (subs ++ [c; a; b]) ≠ EmptyString) as Hh
      by (apply Hnonnil; rewrite length_app; simpl; lia).
    assert (front ++ [c; a; b] ≠ []) as Hq by (by destruct front).
    rewrite (getRootDomainWith_clean tlds _ _ Hh Hq (Hfree _ Hall) Hclean).
    rewrite decide_False by (rewrite length_app; simpl; lia).
    rewrite (slice_last_app 3 front [c; a; b]) by done.
    replace (Js.slice_last 2 (front ++ [c; a; b])) with [a; b].
    + by rewrite bool_decide_true.
    + replace (front ++ [c; a; b]) with ((front ++ [c]) ++ [a; b])
        by (by rewrite <- app_assoc).
      by rewrite (slice_last_app 2 (front ++ [c]) [a; b]).
Qed.

(** X17: Subdomains collapse.  Call root a hostname [a.b] whose two labels
    are not in the table of two-part suffixes, or a hostname [c.a.b]
    where [a.b] is in the table.  Whatever labels stand in front of a
    root, the normal form is the root; the only exception is a root that
    has nothing in front and starts with the label [www]. *)
Theorem getRootDomain_collapses_subdomains (tlds : list string)
    (subs root : list string) :
  Forall label subs → Forall label root →
  ((∃ a b, root = [a; b] ∧ Js.join "." [a; b] ∉ tlds) ∨
   (∃ c a b, root = [c; a; b] ∧ Js.join "." [a; b] ∈ tlds)) →
  (subs = [] → head root ≠ Some "www") →
  getRootDomainWith tlds (Js.join "." (subs ++ root)) = Js.join "." root.
Proof.
  intros Hsubs Hroot [(a & b & -> & Htld)|(c & a & b & -> & Htld)] Hwww.
  - rewrite !Forall_cons in Hroot. destruct Hroot as (Ha & Hb & _).
    apply (getRootDomain_collapse_cases tlds subs a b a); try done.
    intros Hnil ->. by apply Hwww.
  - rewrite !Forall_cons in Hroot. destruct Hroot as (Hc & Ha & Hb & _).
    apply (getRootDomain_collapse_cases tlds subs a b c); try done.
    intros Hnil ->. by apply Hwww.
Qed.

Lemma getRootDomain_collapses_subdomains_witness :
  getRootDomainWith separateTlds
    (Js.join "." (["login"; "m"] ++ ["example"; "co"; "uk"]))
  = Js.join "." ["example"; "co"; "uk"].
Proof.
  apply (getRootDomain_collapses_subdomains separateTlds ["login"; "m"]
           ["example"; "co"; "uk"]).
  - rewrite !Forall_cons, Forall_nil. unfold label. simpl. tauto.
  - rewrite !Forall_cons, Forall_nil. unfold label. simpl. tauto.
  - right. exists "example", "co", "uk". split; [reflexivity|].
    apply (bool_decide_unpack _). vm_compute. exact I.
  - discriminate.
Defined.

(** ** Grouping hostnames by normal form *)

Lemma JsMap_get_snoc {V} k r (v : V) (m : list (string * V)) :
  JsMap.get k (m ++ [(r, v)]) =
    match JsMap.get k m with
    | Some x => Some x
    | None => if decide (r = k) then Some v else None
    end.
Proof.
  induction m as [|[k' v'] m IH]; simpl.
  - by destruct (decide (r = k)).
  - destruct (decide (k' = k)); [done | apply IH].
Qed.

Lemma JsMap_get_update {V} k r (f : V → V) (m : list (string * V)) :
  JsMap.get k (JsMap.update r f m) =
    if decide (r = k) then f <$> JsMap.get k m else JsMap.get k m.
Proof.
  induction m as [|[k' v'] m IH]; simpl; [by case_decide|].
  destruct (decide (k' = r)) as [->|Hne]; simpl.
  - by destruct (decide (r = k)).
  - destruct (decide (k' = k)) as [->|Hne'].
    + by rewrite decide_False by done.
    + done.
Qed.

Lemma JsMap_keys_update {V} r (f : V → V) (m : list (string * V)) :
  (JsMap.update r f m).*1 = m.*1.
Proof.
  induction m as [|[k' v'] m IH]; [done|]. cbn [JsMap.update].
  case_decide; [done|]. rewrite !fmap_cons. by rewrite IH.
Qed.

Lemma JsMap_get_None {V} k (m : list (string * V)) :
  JsMap.get k m = None ↔ k ∉ m.*1.
Proof.
  induction m as [|[k' v'] m IH].
  - split; [intros _ H; by apply elem_of_nil in H | done].
  - cbn [JsMap.get]. rewrite fmap_cons, not_elem_of_cons. cbn [fst].
    destruct (decide (k' = k)) as [Hk|Hk].
    + split; [done|]. intros [Hne _]. by destruct Hne.
    + rewrite IH. split; [|tauto]. intros Hm. split; [|done].
      intros ->. by destruct Hk.
Qed.

(** The groups, read key by key: under a key stand the hostnames with
    that normal form, in the order of the input, and no key stands
    twice. *)
Lemma groupSubdomains_get (domains : list string) :
  NoDup (DomainGroups.groupSubdomains domains).*1 ∧
  ∀ k, JsMap.get k (DomainGroups.groupSubdomains domains) =
         let members :=
           filter (λ d, DomainUtils.getRootDomain d = k) domains in
         if decide (members = []) then None else Some members.
Proof.
  unfold DomainGroups.groupSubdomains.
  induction domains as [|d domains IH] using rev_ind.
  - split; [constructor | done].
  - rewrite foldl_app. cbn [foldl]. destruct IH as [Hnd Hget].
    set (g := foldl _ [] domains) in *.
    set (r := DomainUtils.getRootDomain d).
    unfold JsMap.set, JsMap.has.
    split.
    + rewrite JsMap_keys_update.
      case_bool_decide as Hr; cbn [negb]; [done|].
      rewrite fmap_app. apply NoDup_app. split_and!; [done| |apply NoDup_singleton].
      intros x Hx [->|[]%elem_of_nil]%elem_of_cons. done.
    + intros k. rewrite JsMap_get_update. cbv zeta.
      rewrite filter_app, filter_cons, filter_nil.
      assert (JsMap.get k
                (if negb (bool_decide (r ∈ g.*1))
                 then (if bool_decide (r ∈ g.*1)
                       then JsMap.update r (λ _, []) g
                       else g ++ [(r, [])])
                 else g)
              = match JsMap.get k g with
                | Some x => Some x
                | None => if decide (r = k) then Some [] else None
                end) as ->.
      { case_bool_decide as Hr; cbn [negb].
        - destruct (JsMap.get k g) eqn:Hk; [done|].
          case_decide as Hrk; [|done]. subst k.
          by apply JsMap_get_None in Hk.
        - apply JsMap_get_snoc. }
      rewrite Hget. cbv zeta. subst r.
      set (F := filter (λ d0, DomainUtils.getRootDomain d0 = k) domains).
      destruct (decide (DomainUtils.getRootDomain d = k)) as [Hrk|Hrk].
      * destruct (decide (F = [])) as [Hnil|Hnil].
        -- by rewrite Hnil.
        -- simpl. rewrite decide_False; [done|].
           intros Happ. by apply app_eq_nil in Happ as [? _].
      * rewrite app_nil_r. by destruct (decide (F = [])).
Qed.

(** X18: [groupSubdomains] sorts its input into groups: no key stands twice,
    every hostname of the input stands under its normal form, and what
    stands under a key are the hostnames of the input with that normal
    form, in the order of the input. *)
Theorem groupSubdomains_partition (domains : list string) :
  let groups := DomainGroups.groupSubdomains domains in
  NoDup groups.*1 ∧
  (∀ d, d ∈ domains →
     ∃ members, JsMap.get (DomainUtils.getRootDomain d) groups = Some members ∧
                d ∈ members) ∧
  (∀ k members, JsMap.get k groups = Some members →
     members ≠ [] ∧
     members = filter (λ d, DomainUtils.getRootDomain d = k) domains).
Proof.
  intros groups. subst groups.
  destruct (groupSubdomains_get domains) as [Hnd Hget]. split_and!.
  - done.
  - intros d Hd. rewrite Hget. cbv zeta.
    assert (d ∈ filter (λ d', DomainUtils.getRootDomain d'
                              = DomainUtils.getRootDomain d) domains) as Hin
      by by apply list_elem_of_filter.
    case_decide as Hnil.
    + rewrite Hnil in Hin. by apply elem_of_nil in Hin.
    + by eexists.
  - intros k members. rewrite Hget. cbv zeta.
    case_decide; intros; by simplify_eq.
Qed.

Lemma sort_by_head_min {A} (key : A → nat) (xs : list A) :
  xs ≠ [] →
  ∃ m rest, sort_by key xs = m :: rest ∧ m ∈ xs ∧ ∀ y, y ∈ xs → key m ≤ key y.
Proof.
  induction xs as [|x xs IH]; [done|]. intros _.
  destruct xs as [|x' xs].
  - exists x, []. split_and!; [done|by left|].
    intros y ->%list_elem_of_singleton. done.
  - destruct IH as (m & rest & Hsort & Hin & Hmin); [done|].
    change (sort_by key (x :: x' :: xs))
      with (insert_by key x (sort_by key (x' :: xs))).
    rewrite Hsort. simpl. case_decide as Hle.
    + exists x, (m :: rest). split_and!; [done|by left|].
      intros y [->|Hy]%elem_of_cons; [done|].
      specialize (Hmin y Hy). lia.
    + exists m, (insert_by key x rest). split_and!; [done|by right|].
      intros y [->|Hy]%elem_of_cons; [lia | by apply Hmin].
Qed.

(** X19: [getCanonicalDomain] answers the empty string for no hostname;
    otherwise it answers one of the hostnames: one that is its own
    normal form when there is one, and else one of least length. *)
Theorem getCanonicalDomain_spec (domains : list string) :
  let c := DomainGroups.getCanonicalDomain domains in
  (domains = [] → c = EmptyString) ∧
  (domains ≠ [] → c ∈ domains) ∧
  (∀ d, d ∈ domains → DomainUtils.getRootDomain d = d →
     DomainUtils.getRootDomain c = c) ∧
  ((∀ d, d ∈ domains → DomainUtils.getRootDomain d ≠ d) →
   ∀ d, d ∈ domains → String.length c ≤ String.length d).
Proof.
  intros c. subst c. unfold DomainGroups.getCanonicalDomain.
  destruct domains as [|d0 domains].
  { split_and!; [done|done| |].
    - intros d Hd. by apply elem_of_nil in Hd.
    - intros _ d Hd. by apply elem_of_nil in Hd. }
  rewrite decide_False by done. cbv zeta.
  set (ds := d0 :: domains) in *.
  destruct (filter _ ds) as [|r rs] eqn:Hf.
  - destruct (sort_by_head_min String.length ds) as (m & rest & -> & Hin & Hmin);
      [done|].
    split_and!; [done|done| |done].
    intros d Hd Hroot.
    assert (d ∈ filter (λ x, x = DomainUtils.getRootDomain x) ds) as Hd'
      by by apply list_elem_of_filter.
    rewrite Hf in Hd'. by apply elem_of_nil in Hd'.
  - assert (r ∈ filter (λ x, x = DomainUtils.getRootDomain x) ds) as Hr
      by (rewrite Hf; by left).
    apply list_elem_of_filter in Hr as [Hroot Hin].
    split_and!; [done|done|done|].
    intros Hno. by destruct (Hno r Hin).
Qed.

(** ** Regular expressions made of classes *)

Lemma Matches_cat_inv a b s :
  Re.Matches (Re.Cat a b) s ↔
  ∃ s1 s2, s = s1 +:+ s2 ∧ Re.Matches a s1 ∧ Re.Matches b s2.
Proof.
  split.
  - inversion 1; subst. eauto.
  - intros (s1 & s2 & -> & H1 & H2). by constructor.
Qed.

Lemma Matches_cls_inv p s :
  Re.Matches (Re.Cls p) s ↔ ∃ c, s = String c EmptyString ∧ p c = true.
Proof.
  split.
  - inversion 1; subst. eauto.
  - intros (c & -> & Hc). by constructor.
Qed.

Lemma Matches_eps_inv s : Re.Matches Re.Eps s ↔ s = EmptyString.
Proof. split; [by inversion 1 | intros ->; constructor]. Qed.

Lemma Matches_lit_inv p s : Re.Matches (Re.lit p) s ↔ s = p.
Proof.
  split; [|intros ->; apply Matches_lit].
  revert s. induction p as [|c p IH]; intros s; simpl.
  - by rewrite Matches_eps_inv.
  - rewrite Matches_cat_inv. intros (s1 & s2 & -> & H1 & H2).
    apply Matches_cls_inv in H1 as (c' & -> & Hc).
    apply Ascii.eqb_eq in Hc as <-. apply IH in H2 as ->. done.
Qed.

Lemma Matches_star_cls p s :
  Re.Matches (Re.Star (Re.Cls p)) s ↔ all_chars p s = true.
Proof.
  split.
  - intros H. remember (Re.Star (Re.Cls p)) as r eqn:Hr.
    induction H as [| | | | | |a s1 t Ha _ Ht IH]; try discriminate; [done|].
    injection Hr as ->. apply Matches_cls_inv in Ha as (c & -> & Hc).
    rewrite append_cons, append_nil_l. simpl. rewrite Hc. by apply IH.
  - induction s as [|c s IH]; simpl; [constructor|].
    intros [Hc Hs]%andb_true_iff.
    rewrite <- (append_nil_l s), <- append_cons.
    apply Re.MStarS; [by constructor | by apply IH].
Qed.

Lemma Matches_at_least_cls n p s :
  Re.Matches (Re.at_least n (Re.Cls p)) s ↔
  n ≤ String.length s ∧ all_chars p s = true.
Proof.
  revert s. induction n as [|n IH]; intros s; simpl.
  - rewrite Matches_star_cls. split; [intros; split; [lia|done] | tauto].
  - rewrite Matches_cat_inv. split.
    + intros (s1 & s2 & -> & H1 & H2).
      apply Matches_cls_inv in H1 as (c & -> & Hc).
      apply IH in H2 as [Hlen Hall].
      rewrite append_cons, append_nil_l. simpl. rewrite Hc. split; [lia|done].
    + destruct s as [|c s]; simpl; [lia|].
      intros [Hlen [Hc Hall]%andb_true_iff].
      exists (String c EmptyString), s. split_and!; [done|by constructor|].
      apply IH. split; [lia|done].
Qed.

Lemma Matches_plus_cls p s :
  Re.Matches (Re.plus (Re.Cls p)) s ↔
  s ≠ EmptyString ∧ all_chars p s = true.
Proof.
  change (Re.plus (Re.Cls p)) with (Re.at_least 1 (Re.Cls p)).
  rewrite Matches_at_least_cls. destruct s; simpl; split; intros [? ?];
    split; try done; lia.
Qed.

Lemma test_whole r s : Re.test (Re.whole r) s = true ↔ Re.Matches r s.
Proof.
  unfold Re.test. rewrite matches_spec. simpl.
  rewrite Matches_cat_inv. split.
  - intros (s1 & s2 & -> & H1 & H2). apply Matches_eps_inv in H1 as ->.
    apply Matches_cat_inv in H2 as (s3 & s4 & -> & H3 & H4).
    apply Matches_eps_inv in H4 as ->. by rewrite append_nil_l, append_nil_r.
  - intros H. exists EmptyString, s. split_and!; [done|constructor|].
    rewrite <- (append_nil_r s). constructor; [done|constructor].
Qed.

Lemma all_chars_impl (p q : ascii → bool) s :
  (∀ c, p c = true → q c = true) → all_chars p s = true → all_chars q s = true.
Proof.
  intros Hpq. induction s as [|c s IH]; simpl; [done|].
  intros [Hc Hs]%andb_true_iff. by rewrite (Hpq c Hc), IH.
Qed.

Lemma all_chars_app p s t :
  all_chars p (s +:+ t) = all_chars p s && all_chars p t.
Proof.
  induction s as [|c s IH]; [done|]. rewrite append_cons. simpl.
  by rewrite IH, andb_assoc.
Qed.

(** ** The shape of an address the content script accepts *)

(** [emailRegex] of the content script accepts exactly the strings
    [local@domain.tld] with a non-empty local part of letters, digits
    and [._%+-], a non-empty domain of letters, digits, dots and dashes,
    and a last label of two letters or more. *)
Lemma emailRegex_shape e :
  Re.test Content.emailRegex e = true ↔
  ∃ l d t, e = l +:+ "@" +:+ d +:+ "." +:+ t ∧
    l ≠ EmptyString ∧ all_chars local_char l = true ∧
    d ≠ EmptyString ∧ all_chars domain_char d = true ∧
    2 ≤ String.length t ∧ all_chars Content.alpha t = true.
Proof.
  unfold Content.emailRegex. rewrite test_whole. split.
  - intros H.
    apply (proj1 (Matches_cat_inv _ _ _)) in H as (l & r1 & -> & Hl & H).
    apply (proj1 (Matches_plus_cls _ _)) in Hl as [Hl1 Hl2].
    apply (proj1 (Matches_cat_inv _ _ _)) in H as (x & r2 & -> & Hx & H).
    apply (proj1 (Matches_lit_inv _ _)) in Hx as ->.
    apply (proj1 (Matches_cat_inv _ _ _)) in H as (d & r3 & -> & Hd & H).
    apply (proj1 (Matches_plus_cls _ _)) in Hd as [Hd1 Hd2].
    apply (proj1 (Matches_cat_inv _ _ _)) in H as (y & t & -> & Hy & Ht).
    apply (proj1 (Matches_lit_inv _ _)) in Hy as ->.
    apply (proj1 (Matches_at_least_cls _ _ _)) in Ht as [Ht1 Ht2].
    by exists l, d, t.
  - intros (l & d & t & -> & Hl1 & Hl2 & Hd1 & Hd2 & Ht1 & Ht2).
    constructor; [by apply Matches_plus_cls|].
    constructor; [apply Matches_lit|].
    constructor; [by apply Matches_plus_cls|].
    constructor; [apply Matches_lit|].
    by apply Matches_at_least_cls.
Qed.

Lemma isValidEmail_true_inv e :
  Content.isValidEmail e = true →
  Re.test Content.emailRegex e = true ∧
  Content.some_test Content.invalidPatterns (Js.toLowerCase e) = false.
Proof.
  unfold Content.isValidEmail.
  destruct (Re.test Content.emailRegex e); [|done]. cbn [negb].
  by destruct (Content.some_test Content.invalidPatterns _).
Qed.

Lemma some_test_false ps s p :
  Content.some_test ps s = false → In p ps → Re.test p s = false.
Proof.
  intros Hfalse Hin. destruct (Re.test p s) eqn:Hp; [|done].
  assert (Content.some_test ps s = true); [|congruence].
  apply existsb_exists. by exists p.
Qed.

Lemma all_chars_no_at p s :
  (∀ c, p c = true → Ascii.eqb c "@" = false) →
  all_chars p s = true → Js.has_char "@" s = false.
Proof.
  intros Hp. induction s as [|c s IH]; simpl; [done|].
  intros [Hc Hs]%andb_true_iff. by rewrite (Hp c Hc), IH.
Qed.

Lemma local_char_no_at c : local_char c = true → Ascii.eqb c "@" = false.
Proof.
  destruct c as [[] [] [] [] [] [] [] []]; vm_compute; intros; congruence.
Qed.

Lemma domain_char_no_at c : domain_char c = true → Ascii.eqb c "@" = false.
Proof.
  destruct c as [[] [] [] [] [] [] [] []]; vm_compute; intros; congruence.
Qed.

Lemma alpha_domain_char c : Content.alpha c = true → domain_char c = true.
Proof.
  destruct c as [[] [] [] [] [] [] [] []]; vm_compute; intros; congruence.
Qed.

Lemma local_char_not_space c :
  local_char c = true → Popup.not_space_at c = true.
Proof.
  destruct c as [[] [] [] [] [] [] [] []]; vm_compute; intros; congruence.
Qed.

Lemma domain_char_not_space c :
  domain_char c = true → Popup.not_space_at c = true.
Proof.
  destruct c as [[] [] [] [] [] [] [] []]; vm_compute; intros; congruence.
Qed.

(** X20: An address the content script accepts has one [@], between a
    non-empty local part and a domain of four characters or more; none
    of the denylist fragments occurs in its lower-case form; and unless
    it ends in one of the listed providers, its local part has 2 to 30
    characters and its domain at most 50. *)
Theorem isValidEmail_accepted_shape (e : string) :
  Content.isValidEmail e = true →
  ∃ l dom,
    e = l +:+ "@" +:+ dom ∧ Js.split "@" e = [l; dom] ∧
    l ≠ EmptyString ∧ 4 ≤ String.length dom ∧
    (∀ frag, frag ∈ Content.denylist_fragments →
       Js.includes frag (Js.toLowerCase e) = false) ∧
    (Content.some_test Content.validProviders (Js.toLowerCase e) = true ∨
     (2 ≤ String.length l ≤ 30 ∧ String.length dom ≤ 50)).
Proof.
  intros Hvalid.
  destruct (isValidEmail_true_inv e Hvalid) as [Hre Hinv].
  apply emailRegex_shape in Hre
    as (l & d & t & He & Hl1 & Hl2 & Hd1 & Hd2 & Ht1 & Ht2).
  exists l, (d +:+ "." +:+ t).
  assert (Js.has_char "@" l = false) as Hl3
    by (eapply all_chars_no_at; [apply local_char_no_at|done]).
  assert (Js.has_char "@" (d +:+ "." +:+ t) = false) as Hd3.
  { apply (all_chars_no_at domain_char); [apply domain_char_no_at|].
    rewrite !all_chars_app, Hd2. simpl.
    by rewrite (all_chars_impl _ _ _ alpha_domain_char Ht2). }
  assert (Js.split "@" e = [l; d +:+ "." +:+ t]) as Hsplit.
  { rewrite He. change ("@" +:+ d +:+ "." +:+ t)
      with (String "@" (d +:+ "." +:+ t)).
    rewrite split_app_sep by done. by rewrite split_sep_free_one. }
  split_and!; [done|done|done| | |].
  - rewrite !append_length. simpl. destruct d; [done|]. simpl. lia.
  - intros frag Hfrag. destruct (Js.includes frag _) eqn:Hinc; [|done].
    apply test_search_lit in Hinc.
    rewrite (some_test_false _ _ _ Hinv (denylist_fragment_pattern _ Hfrag))
      in Hinc. done.
  - revert Hvalid. unfold Content.isValidEmail.
    destruct (Re.test Content.emailRegex e); [|done]. cbn [negb].
    rewrite Hinv.
    destruct (Content.some_test Content.validProviders _); [by left|].
    rewrite Hsplit. intros Hrest. right.
    destruct (30 <? String.length l) eqn:H30; [done|].
    destruct (String.length l <? 2) eqn:H2; [done|].
    destruct (50 <? _) eqn:H50; [done|].
    apply Nat.ltb_ge in H30, H2, H50. lia.
Qed.

Lemma isValidEmail_accepted_shape_witness :
  ∃ l dom,
    "jane.doe@company.org" = l +:+ "@" +:+ dom ∧
    Js.split "@" "jane.doe@company.org" = [l; dom] ∧
    l ≠ EmptyString ∧ 4 ≤ String.length dom ∧
    (∀ frag, frag ∈ Content.denylist_fragments →
       Js.includes frag (Js.toLowerCase "jane.doe@company.org") = false) ∧
    (Content.some_test Content.validProviders
       (Js.toLowerCase "jane.doe@company.org") = true ∨
     (2 ≤ String.length l ≤ 30 ∧ String.length dom ≤ 50)).
Proof.
  apply (isValidEmail_accepted_shape "jane.doe@company.org").
  vm_compute. reflexivity.
Defined.

(** X22: Every address the content script accepts is accepted by the looser
    pattern of the popup. *)
Theorem content_valid_popup_valid (e : string) :
  Content.isValidEmail e = true → Popup.isValidEmail e = true.
Proof.
  intros Hvalid.
  destruct (isValidEmail_true_inv e Hvalid) as [Hre _].
  apply emailRegex_shape in Hre
    as (l & d & t & -> & Hl1 & Hl2 & Hd1 & Hd2 & Ht1 & Ht2).
  unfold Popup.isValidEmail, Popup.emailRegex. apply test_whole.
  constructor.
  { apply Matches_plus_cls. split; [done|].
    by apply (all_chars_impl _ _ _ local_char_not_space). }
  constructor; [apply Matches_lit|].
  constructor.
  { apply Matches_plus_cls. split; [done|].
    by apply (all_chars_impl _ _ _ domain_char_not_space). }
  constructor; [apply Matches_lit|].
  apply Matches_plus_cls. split; [intros ->; simpl in Ht1; lia|].
  apply (all_chars_impl _ _ _ domain_char_not_space).
  by apply (all_chars_impl _ _ _ alpha_domain_char).
Qed.

Lemma content_valid_popup_valid_witness :
  Popup.isValidEmail "jane.doe@company.org" = true.
Proof.
  apply (content_valid_popup_valid "jane.doe@company.org").
  vm_compute. reflexivity.
Defined.

(** X23: On an address the content script accepts, the validator of the
    background script answers false exactly when the lower-case form
    matches [/your.email/], whose dot stands for any character. *)
Theorem content_valid_background (e : string) :
  Content.isValidEmail e = true →
  Background.isValidEmail e
  = negb (Re.test Background.your_email (Js.toLowerCase e)).
Proof.
  intros Hvalid.
  destruct (isValidEmail_true_inv e Hvalid) as [Hre Hinv].
  apply emailRegex_shape in Hre
    as (l & d & t & He & Hl1 & Hl2 & Hd1 & Hd2 & Ht1 & Ht2).
  unfold Background.isValidEmail.
  assert (Js.includes "@" e = true) as ->.
  { apply includes_spec. exists l, (d +:+ "." +:+ t). by rewrite He. }
  assert ((5 <? String.length e) = true) as ->.
  { apply Nat.ltb_lt. rewrite He, !append_length. simpl.
    destruct l; [done|]. destruct d; [done|]. simpl. lia. }
  rewrite !andb_true_r. f_equal.
  unfold Background.invalidPatterns. cbn [existsb].
  do 7 (rewrite (some_test_false _ _ _ Hinv)
          by (unfold Content.invalidPatterns;
              repeat first [left; reflexivity | right])).
  cbn [orb]. apply orb_false_r.
Qed.

Lemma content_valid_background_witness :
  Background.isValidEmail "yourxemail@gmail.com"
  = negb (Re.test Background.your_email (Js.toLowerCase "yourxemail@gmail.com")).
Proof.
  apply (content_valid_background "yourxemail@gmail.com").
  vm_compute. reflexivity.
Defined.


(** ** The content validator does not look at the case of letters *)

Lemma deriv_lower r c :
  case_blind r →
  Re.deriv (Js.lower_char c) r = Re.deriv c r ∧ case_blind (Re.deriv c r).
Proof.
  induction r as [| |p|a IHa b IHb|a IHa b IHb|a IHa]; simpl.
  - done.
  - done.
  - intros Hp. rewrite Hp. by destruct (p c).
  - intros [Ha Hb]. destruct (IHa Ha) as [-> ?], (IHb Hb) as [-> ?].
    by destruct (Re.nullable a).
  - intros [Ha Hb]. by destruct (IHa Ha) as [-> ?], (IHb Hb) as [-> ?].
  - intros Ha. by destruct (IHa Ha) as [-> ?].
Qed.

Lemma matches_lower r s :
  case_blind r → Re.matches r (Js.toLowerCase s) = Re.matches r s.
Proof.
  revert r. induction s as [|c s IH]; intros r Hr; simpl; [done|].
  destruct (deriv_lower r c Hr) as [-> Hd]. by apply IH.
Qed.

Lemma test_lower p s :
  case_blind (Re.body p) → Re.test p (Js.toLowerCase s) = Re.test p s.
Proof.
  intros Hp. unfold Re.test. apply matches_lower. simpl.
  split_and!; [by destruct (Re.anchored_start p) | done
              | by destruct (Re.anchored_end p)].
Qed.

Lemma case_blind_at_least n r : case_blind r → case_blind (Re.at_least n r).
Proof. intros Hr. induction n as [|n IH]; simpl; [done | by split]. Qed.

Lemma case_blind_emailRegex : case_blind (Re.body Content.emailRegex).
Proof.
  simpl. split_and!; try done;
    intros [[] [] [] [] [] [] [] []]; reflexivity.
Qed.

Lemma case_blind_suspicious p :
  In p Content.suspiciousUsernamePatterns → case_blind (Re.body p).
Proof.
  unfold Content.suspiciousUsernamePatterns.
  intros [<-|[<-|[<-|[<-|[]]]]]; cbn [Re.body Re.whole Re.search];
    apply case_blind_at_least; intros [[] [] [] [] [] [] [] []]; reflexivity.
Qed.

Lemma some_test_lower ps s :
  (∀ p, In p ps → case_blind (Re.body p)) →
  Content.some_test ps (Js.toLowerCase s) = Content.some_test ps s.
Proof.
  unfold Content.some_test. induction ps as [|p ps IH]; intros Hps; [done|].
  cbn [existsb]. rewrite test_lower by (apply Hps; by left).
  f_equal. apply IH. intros q Hq. apply Hps. by right.
Qed.

Lemma lower_char_at c :
  Ascii.eqb (Js.lower_char c) "@" = Ascii.eqb c "@".
Proof. destruct c as [[] [] [] [] [] [] [] []]; reflexivity. Qed.

Lemma split_at_lower s :
  Js.split "@" (Js.toLowerCase s) = Js.toLowerCase <$> Js.split "@" s.
Proof.
  induction s as [|c s IH]; [done|]. simpl.
  rewrite lower_char_at, IH.
  destruct (Ascii.eqb c "@"); [done|]. by destruct (Js.split "@" s).
Qed.

(** X21: The content script gives an address and its lower-case form the same
    answer. *)
Theorem isValidEmail_ignores_case (e : string) :
  Content.isValidEmail (Js.toLowerCase e) = Content.isValidEmail e.
Proof.
  unfold Content.isValidEmail.
  rewrite (test_lower _ _ case_blind_emailRegex), toLowerCase_idemp.
  rewrite split_at_lower.
  destruct (Js.split "@" e) as [|u [|d [|? ?]]]; [done..| |done].
  cbn [fmap list_fmap]. rewrite !toLowerCase_length.
  by rewrite (some_test_lower _ _ case_blind_suspicious).
Qed.


(** ** Gmail addresses *)

Lemma endsWith_spec p s :
  Js.endsWith p s = true ↔ ∃ pre, s = pre +:+ p.
Proof.
  induction s as [|c s IH]; cbn [Js.endsWith].
  - rewrite orb_false_r, String.eqb_eq. split.
    + intros <-. by exists EmptyString.
    + intros [[|a pre] H]; [done|]. by rewrite append_cons in H.
  - rewrite orb_true_iff, String.eqb_eq, IH. split.
    + intros [<-|[pre ->]]; [by exists EmptyString|].
      by exists (String c pre).
    + intros [[|a pre] H].
      * left. by rewrite append_nil_l in H.
      * right. rewrite append_cons in H. injection H as _ ->. by exists pre.
Qed.

Lemma split_app sep a b :
  Js.split sep (a +:+ String sep b) = Js.split sep a ++ Js.split sep b.
Proof.
  induction a as [|c a IH].
  - rewrite append_nil_l. simpl. by rewrite Ascii.eqb_refl.
  - rewrite append_cons. simpl. rewrite IH.
    destruct (Ascii.eqb c sep); [done|].
    pose proof (split_nonempty sep a). by destruct (Js.split sep a).
Qed.

Lemma endsWith_at u d g :
  Js.has_char "@" u = false → Js.has_char "@" d = false →
  Js.has_char "@" g = false →
  Js.endsWith (String "@" g) (u +:+ String "@" d) = bool_decide (d = g).
Proof.
  intros Hu Hd Hg. apply eq_iff_eq_true.
  rewrite endsWith_spec, bool_decide_eq_true. split.
  - intros [pre H]. apply (f_equal (Js.split "@")) in H.
    rewrite split_app_sep, split_app in H by done.
    rewrite (split_sep_free_one _ d), (split_sep_free_one _ g) in H by done.
    apply (f_equal last) in H. rewrite last_snoc in H. simpl in H.
    congruence.
  - intros ->. by exists u.
Qed.

Lemma has_char_lower_at s :
  Js.has_char "@" (Js.toLowerCase s) = Js.has_char "@" s.
Proof.
  induction s as [|c s IH]; simpl; [done|]. by rewrite lower_char_at, IH.
Qed.

Lemma exists_domain_at (domains : list string) u d :
  Forall (λ g, Js.has_char "@" g = false) domains →
  Js.has_char "@" u = false → Js.has_char "@" d = false →
  existsb (λ domain, Js.endsWith ("@" +:+ domain) (u +:+ String "@" d)) domains
  = bool_decide (d ∈ domains).
Proof.
  intros Hdomains Hu Hd.
  induction Hdomains as [|g gs Hg _ IH]; [done|].
  cbn [existsb]. rewrite IH.
  change ("@" +:+ g) with (String "@" g). rewrite endsWith_at by done.
  apply eq_iff_eq_true.
  rewrite orb_true_iff, !bool_decide_eq_true, elem_of_cons. done.
Qed.

Lemma isGmailAddress_at u d :
  Js.has_char "@" u = false → Js.has_char "@" d = false →
  GmailExtractor.isGmailAddress (u +:+ String "@" d)
  = bool_decide (Js.toLowerCase d ∈ GmailExtractor.GMAIL_DOMAINS).
Proof.
  intros Hu Hd. unfold GmailExtractor.isGmailAddress. cbv zeta.
  rewrite toLowerCase_app. cbn [Js.toLowerCase].
  change (Js.lower_char "@") with "@"%char.
  apply exists_domain_at; rewrite ?has_char_lower_at; [|done..].
  unfold GmailExtractor.GMAIL_DOMAINS. repeat constructor.
Qed.

Lemma remove_char_free c s : Js.has_char c (Js.remove_char c s) = false.
Proof.
  induction s as [|d s IH]; simpl; [done|].
  destruct (Ascii.eqb d c) eqn:Hd; [done|]. simpl. by rewrite Hd.
Qed.

Lemma remove_char_id c s :
  Js.has_char c s = false → Js.remove_char c s = s.
Proof.
  induction s as [|d s IH]; simpl; [done|].
  intros [-> Hs]%orb_false_iff. by rewrite IH.
Qed.

Lemma remove_char_app c s t :
  Js.remove_char c (s +:+ t) = Js.remove_char c s +:+ Js.remove_char c t.
Proof.
  induction s as [|d s IH]; [done|]. rewrite append_cons. simpl.
  rewrite IH. by destruct (Ascii.eqb d c).
Qed.

Lemma has_char_remove a c s :
  Js.has_char a s = false → Js.has_char a (Js.remove_char c s) = false.
Proof.
  induction s as [|d s IH]; simpl; [done|].
  intros [Hd Hs]%orb_false_iff.
  destruct (Ascii.eqb d c); [by apply IH|]. simpl. by rewrite Hd, IH.
Qed.

Lemma has_char_substring0 a n s :
  Js.has_char a s = false → Js.has_char a (Js.substring0 n s) = false.
Proof.
  revert s. induction n as [|n IH]; intros [|d s]; simpl; try done.
  intros [-> Hs]%orb_false_iff. by apply IH.
Qed.

Lemma indexOf_none c s : Js.has_char c s = false → Js.indexOf c s = (-1)%Z.
Proof.
  induction s as [|d s IH]; simpl; [done|].
  intros [-> Hs]%orb_false_iff. by rewrite IH.
Qed.

Lemma indexOf_lower_bound c s : (-1 ≤ Js.indexOf c s)%Z.
Proof.
  induction s as [|d s IH]; simpl; [done|].
  destruct (Ascii.eqb d c); [done|].
  destruct (Z.ltb_spec (Js.indexOf c s) 0); lia.
Qed.

Lemma substring0_before_index c s :
  Js.has_char c (Js.substring0 (Z.to_nat (Js.indexOf c s)) s) = false.
Proof.
  induction s as [|d s IH]; simpl; [done|].
  destruct (Ascii.eqb d c) eqn:Hd; [done|].
  destruct (Z.ltb_spec (Js.indexOf c s) 0) as [Hneg|Hpos]; [done|].
  replace (Z.to_nat (Js.indexOf c s + 1)) with (S (Z.to_nat (Js.indexOf c s)))
    by lia.
  simpl. by rewrite Hd, IH.
Qed.

Lemma indexOf_app c s t :
  Js.has_char c s = false →
  Js.indexOf c (s +:+ String c t) = Z.of_nat (String.length s).
Proof.
  induction s as [|d s IH]; simpl.
  - intros _. by rewrite Ascii.eqb_refl.
  - intros [-> Hs]%orb_false_iff. rewrite IH by done.
    destruct (Z.ltb_spec (Z.of_nat (String.length s)) 0); lia.
Qed.

Lemma substring0_app s t : Js.substring0 (String.length s) (s +:+ t) = s.
Proof.
  induction s as [|d s IH]; simpl; [by destruct t|]. by rewrite IH.
Qed.

Lemma cleanUsername_no_at u :
  Js.has_char "@" u = false →
  Js.has_char "@" (GmailExtractor.cleanUsername u) = false.
Proof.
  intros Hu. unfold GmailExtractor.cleanUsername. cbv zeta.
  destruct (0 <? _)%Z.
  - by apply has_char_substring0, has_char_remove.
  - by apply has_char_remove.
Qed.

Lemma cleanUsername_idemp u :
  GmailExtractor.cleanUsername (GmailExtractor.cleanUsername u)
  = GmailExtractor.cleanUsername u.
Proof.
  unfold GmailExtractor.cleanUsername at 2 3. cbv zeta.
  set (n := Js.remove_char "." u).
  assert (Js.has_char "." n = false) as Hn by apply remove_char_free.
  destruct (Z.ltb_spec 0 (Js.indexOf "+" n)) as [Hpos|Hnot].
  - unfold GmailExtractor.cleanUsername. cbv zeta.
    rewrite (remove_char_id "." (Js.substring0 _ n))
      by by apply has_char_substring0.
    by rewrite (indexOf_none "+" (Js.substring0 _ n))
      by apply substring0_before_index.
  - unfold GmailExtractor.cleanUsername. cbv zeta.
    rewrite (remove_char_id "." n) by done.
    by destruct (Z.ltb_spec 0 (Js.indexOf "+" n)); [lia|].
Qed.

Lemma lower_fixed_remove c s :
  Js.toLowerCase s = s →
  Js.toLowerCase (Js.remove_char c s) = Js.remove_char c s.
Proof.
  induction s as [|d s IH]; simpl; [done|].
  intros [= Hd Hs]. destruct (Ascii.eqb d c); [by apply IH|].
  simpl. by rewrite Hd, IH.
Qed.

Lemma lower_fixed_substring0 n s :
  Js.toLowerCase s = s →
  Js.toLowerCase (Js.substring0 n s) = Js.substring0 n s.
Proof.
  revert s. induction n as [|n IH]; intros [|d s]; simpl; try done.
  intros [= Hd Hs]. by rewrite Hd, IH.
Qed.

Lemma lower_fixed_cleanUsername u :
  Js.toLowerCase u = u →
  Js.toLowerCase (GmailExtractor.cleanUsername u)
  = GmailExtractor.cleanUsername u.
Proof.
  intros Hu. unfold GmailExtractor.cleanUsername. cbv zeta.
  destruct (0 <? _)%Z.
  - by apply lower_fixed_substring0, lower_fixed_remove.
  - by apply lower_fixed_remove.
Qed.

(** The normal form of an address with one [@]. *)
Lemma normalizeGmailAddress_at u d :
  Js.has_char "@" u = false → Js.has_char "@" d = false →
  GmailExtractor.isGmailAddress (u +:+ String "@" d) = true →
  GmailExtractor.normalizeGmailAddress (u +:+ String "@" d)
  = GmailExtractor.cleanUsername (Js.toLowerCase u)
    +:+ String "@" (Js.toLowerCase d).
Proof.
  intros Hu Hd Hgmail. unfold GmailExtractor.normalizeGmailAddress.
  rewrite Hgmail. cbn [negb].
  rewrite toLowerCase_app. cbn [Js.toLowerCase].
  change (Js.lower_char "@") with "@"%char.
  rewrite split_app_sep by by rewrite has_char_lower_at.
  by rewrite split_sep_free_one by by rewrite has_char_lower_at.
Qed.

(** X25: Normalising twice gives what normalising once gives. *)
Theorem normalizeGmailAddress_idempotent (email : string) :
  GmailExtractor.normalizeGmailAddress
    (GmailExtractor.normalizeGmailAddress email)
  = GmailExtractor.normalizeGmailAddress email.
Proof.
  unfold GmailExtractor.normalizeGmailAddress at 2 3.
  destruct (GmailExtractor.isGmailAddress email) eqn:Hgmail; cbn [negb].
  2: { unfold GmailExtractor.normalizeGmailAddress. by rewrite Hgmail. }
  pose proof (split_sep_free "@" (Js.toLowerCase email)) as Hfree.
  pose proof (split_at_lower (Js.toLowerCase email)) as Hlow.
  rewrite toLowerCase_idemp in Hlow.
  destruct (Js.split "@" (Js.toLowerCase email)) as [|u rest] eqn:Hsplit.
  { by destruct (split_nonempty "@" (Js.toLowerCase email)). }
  apply Forall_cons in Hfree as [Hu Hrest].
  injection Hlow as Hu' Hrest'.
  set (d := match rest with d :: _ => d | [] => "undefined" end).
  assert (Js.has_char "@" d = false) as Hd.
  { subst d. destruct rest as [|d ?]; [done|]. by apply Forall_cons in Hrest as [? _]. }
  assert (Js.toLowerCase d = d) as Hd'.
  { subst d. destruct rest as [|d ?]; [done|]. by injection Hrest' as <- _. }
  change ("@" +:+ d) with (String "@" d).
  set (c := GmailExtractor.cleanUsername u).
  assert (Js.has_char "@" c = false) as Hc by by apply cleanUsername_no_at.
  destruct (GmailExtractor.isGmailAddress (c +:+ String "@" d)) eqn:Hagain.
  2: { unfold GmailExtractor.normalizeGmailAddress. by rewrite Hagain. }
  rewrite normalizeGmailAddress_at by done.
  subst c. rewrite lower_fixed_cleanUsername by done.
  by rewrite cleanUsername_idemp, Hd'.
Qed.


Lemma has_char_append c s t :
  Js.has_char c (s +:+ t) = Js.has_char c s || Js.has_char c t.
Proof.
  induction s as [|d s IH]; [done|]. rewrite append_cons. simpl.
  by rewrite IH, orb_assoc.
Qed.

Lemma lower_char_dot c : Ascii.eqb (Js.lower_char c) "." = Ascii.eqb c ".".
Proof. destruct c as [[] [] [] [] [] [] [] []]; reflexivity. Qed.

Lemma lower_char_plus c : Ascii.eqb (Js.lower_char c) "+" = Ascii.eqb c "+".
Proof. destruct c as [[] [] [] [] [] [] [] []]; reflexivity. Qed.

Lemma remove_dots_lower s :
  Js.remove_char "." (Js.toLowerCase s) = Js.toLowerCase (Js.remove_char "." s).
Proof.
  induction s as [|c s IH]; simpl; [done|].
  rewrite lower_char_dot, IH. by destruct (Ascii.eqb c ".").
Qed.

Lemma has_char_lower_plus s :
  Js.has_char "+" (Js.toLowerCase s) = Js.has_char "+" s.
Proof.
  induction s as [|c s IH]; simpl; [done|]. by rewrite lower_char_plus, IH.
Qed.

Lemma cleanUsername_no_plus w :
  Js.has_char "+" w = false →
  GmailExtractor.cleanUsername w = Js.remove_char "." w.
Proof.
  intros Hplus. unfold GmailExtractor.cleanUsername. cbv zeta.
  by rewrite indexOf_none by by apply has_char_remove.
Qed.

(** X24: For an address with one [@], both Gmail tests look at the domain
    only, without regard to case: the extractor accepts the nine domains
    of [GMAIL_DOMAINS], the background script the first two of them. *)
Theorem isGmailAddress_by_domain (u d : string) :
  Js.has_char "@" u = false → Js.has_char "@" d = false →
  GmailExtractor.isGmailAddress (u +:+ "@" +:+ d)
  = bool_decide (Js.toLowerCase d ∈ GmailExtractor.GMAIL_DOMAINS) ∧
  Background.isGmailAddress (u +:+ "@" +:+ d)
  = bool_decide (Js.toLowerCase d ∈ ["gmail.com"; "googlemail.com"]) ∧
  (Background.isGmailAddress (u +:+ "@" +:+ d) = true →
   GmailExtractor.isGmailAddress (u +:+ "@" +:+ d) = true).
Proof.
  intros Hu Hd. change ("@" +:+ d) with (String "@" d).
  assert (Background.isGmailAddress (u +:+ String "@" d)
          = bool_decide (Js.toLowerCase d ∈ ["gmail.com"; "googlemail.com"]))
    as Hbg.
  { unfold Background.isGmailAddress. cbv zeta.
    rewrite toLowerCase_app. cbn [Js.toLowerCase].
    change (Js.lower_char "@") with "@"%char.
    apply exists_domain_at; rewrite ?has_char_lower_at; [|done..].
    repeat constructor. }
  rewrite Hbg, isGmailAddress_at by done. split_and!; [done..|].
  rewrite !bool_decide_eq_true. unfold GmailExtractor.GMAIL_DOMAINS.
  rewrite !elem_of_cons. tauto.
Qed.

Lemma isGmailAddress_by_domain_witness :
  GmailExtractor.isGmailAddress ("Jane" +:+ "@" +:+ "Gmail.DE")
  = bool_decide (Js.toLowerCase "Gmail.DE" ∈ GmailExtractor.GMAIL_DOMAINS) ∧
  Background.isGmailAddress ("Jane" +:+ "@" +:+ "Gmail.DE")
  = bool_decide (Js.toLowerCase "Gmail.DE" ∈ ["gmail.com"; "googlemail.com"]) ∧
  (Background.isGmailAddress ("Jane" +:+ "@" +:+ "Gmail.DE") = true →
   GmailExtractor.isGmailAddress ("Jane" +:+ "@" +:+ "Gmail.DE") = true).
Proof. apply (isGmailAddress_by_domain "Jane" "Gmail.DE"); reflexivity. Defined.

(** X26: Two Gmail addresses with one [@] whose domains agree up to case, and
    whose user names agree up to case and dots, have the same normal form,
    and that normal form is a Gmail address again. *)
Theorem normalizeGmailAddress_dots_and_case (u v d d' : string) :
  Js.has_char "@" u = false → Js.has_char "@" v = false →
  Js.has_char "@" d = false → Js.has_char "@" d' = false →
  GmailExtractor.isGmailAddress (u +:+ "@" +:+ d) = true →
  Js.toLowerCase d = Js.toLowerCase d' →
  Js.remove_char "." (Js.toLowerCase u) = Js.remove_char "." (Js.toLowerCase v) →
  GmailExtractor.normalizeGmailAddress (u +:+ "@" +:+ d)
  = GmailExtractor.normalizeGmailAddress (v +:+ "@" +:+ d') ∧
  GmailExtractor.isGmailAddress
    (GmailExtractor.normalizeGmailAddress (u +:+ "@" +:+ d)) = true.
Proof.
  intros Hu Hv Hd Hd' Hgmail Hdom Huser.
  change ("@" +:+ d) with (String "@" d) in *.
  change ("@" +:+ d') with (String "@" d').
  assert (GmailExtractor.isGmailAddress (v +:+ String "@" d') = true) as Hgmail'.
  { rewrite isGmailAddress_at in Hgmail |- * by done. by rewrite <- Hdom. }
  rewrite !normalizeGmailAddress_at by done. split.
  - rewrite <- Hdom. f_equal.
    unfold GmailExtractor.cleanUsername. cbv zeta. by rewrite Huser.
  - rewrite isGmailAddress_at, toLowerCase_idemp.
    + by rewrite isGmailAddress_at in Hgmail by done.
    + by apply cleanUsername_no_at; rewrite has_char_lower_at.
    + by rewrite has_char_lower_at.
Qed.

Lemma normalizeGmailAddress_dots_and_case_witness :
  GmailExtractor.normalizeGmailAddress ("Jane.Doe" +:+ "@" +:+ "Gmail.com")
  = GmailExtractor.normalizeGmailAddress ("j.a.n.e.doe" +:+ "@" +:+ "gmail.com") ∧
  GmailExtractor.isGmailAddress
    (GmailExtractor.normalizeGmailAddress ("Jane.Doe" +:+ "@" +:+ "Gmail.com"))
  = true.
Proof.
  apply (normalizeGmailAddress_dots_and_case
           "Jane.Doe" "j.a.n.e.doe" "Gmail.com" "gmail.com"); reflexivity.
Defined.

(** X27: A [+tag] after a user name that has a character other than a dot is
    dropped; after a user name of dots only (or none) the tag stays, with
    its [+]. *)
Theorem normalizeGmailAddress_plus_tag (u tag d : string) :
  Js.has_char "@" u = false → Js.has_char "+" u = false →
  Js.has_char "@" tag = false → Js.has_char "@" d = false →
  GmailExtractor.isGmailAddress (u +:+ "@" +:+ d) = true →
  GmailExtractor.normalizeGmailAddress (u +:+ "+" +:+ tag +:+ "@" +:+ d)
  = if bool_decide (Js.remove_char "." u = EmptyString)
    then "+" +:+ Js.remove_char "." (Js.toLowerCase tag)
         +:+ "@" +:+ Js.toLowerCase d
    else GmailExtractor.normalizeGmailAddress (u +:+ "@" +:+ d).
Proof.
  intros Hu Hplus Htag Hd Hgmail.
  change ("@" +:+ d) with (String "@" d) in *.
  change ("+" +:+ tag +:+ String "@" d)
    with (String "+" tag +:+ String "@" d).
  rewrite <- append_assoc.
  assert (Js.has_char "@" (u +:+ String "+" tag) = false) as Hut.
  { rewrite has_char_append. simpl. by rewrite Hu, Htag. }
  assert (GmailExtractor.isGmailAddress
            ((u +:+ String "+" tag) +:+ String "@" d) = true) as Hgmail'.
  { by rewrite isGmailAddress_at in Hgmail |- * by done. }
  rewrite normalizeGmailAddress_at by done.
  set (n := Js.remove_char "." (Js.toLowerCase u)).
  set (t := Js.remove_char "." (Js.toLowerCase tag)).
  assert (Js.has_char "." n = false) as Hn1 by apply remove_char_free.
  assert (Js.has_char "+" n = false) as Hn2.
  { apply has_char_remove. by rewrite has_char_lower_plus. }
  assert (Js.remove_char "." (Js.toLowerCase (u +:+ String "+" tag))
          = n +:+ String "+" t) as Hrem.
  { rewrite toLowerCase_app, remove_char_app. done. }
  assert (GmailExtractor.cleanUsername (Js.toLowerCase (u +:+ String "+" tag))
          = if bool_decide (n = EmptyString) then String "+" t else n) as ->.
  { unfold GmailExtractor.cleanUsername. cbv zeta.
    rewrite Hrem, indexOf_app by done.
    case_bool_decide as Hempty.
    - by rewrite Hempty.
    - destruct (Z.ltb_spec 0 (Z.of_nat (String.length n))) as [_|Hle].
      + by rewrite Nat2Z.id, substring0_app.
      + destruct n; [done|]. simpl in Hle. lia. }
  assert (n = EmptyString ↔ Js.remove_char "." u = EmptyString) as Hiff.
  { subst n. by rewrite remove_dots_lower, toLowerCase_nil_iff. }
  rewrite (bool_decide_ext _ _ Hiff).
  case_bool_decide; [done|].
  rewrite normalizeGmailAddress_at by done.
  by rewrite cleanUsername_no_plus by by rewrite has_char_lower_plus.
Qed.

Lemma normalizeGmailAddress_plus_tag_witness :
  GmailExtractor.normalizeGmailAddress
    ("jane.doe" +:+ "+" +:+ "shop" +:+ "@" +:+ "gmail.com")
  = if bool_decide (Js.remove_char "." "jane.doe" = EmptyString)
    then "+" +:+ Js.remove_char "." (Js.toLowerCase "shop")
         +:+ "@" +:+ Js.toLowerCase "gmail.com"
    else GmailExtractor.normalizeGmailAddress ("jane.doe" +:+ "@" +:+ "gmail.com").
Proof.
  apply (normalizeGmailAddress_plus_tag "jane.doe" "shop" "gmail.com");
    reflexivity.
Defined.


(** ** The merge on the server *)

(** X13: The merge that the Convex function computes is the merge of the
    extension under its default strategy, for every pair of stores. *)
Theorem mergeMappings_is_smartMerge_latest (l r : DomainMappings) :
  Convex.mergeMappings l r = smartMerge l r LATEST_WINS.
Proof. reflexivity. Qed.


(** ** Addresses stay distinct *)

(** X6: From a store whose lists hold each address once, every upsert, the
    manual add, the two deletions and the renaming of a domain lead to
    such a store again; and a merge into it as the remote side does too,
    whatever the local side holds. *)
Theorem unique_emails_kept (st : DomainMappings) :
  unique_emails st →
  (∀ now d e url, unique_emails (exec (saveEmailMapping now d e url) st)) ∧
  (∀ now d e url, unique_emails (exec (storeEmailMapping now d e url) st)) ∧
  (∀ e website ts url, unique_emails (exec (LOGIN_DETECTED e website ts url) st)) ∧
  (∀ now d e, unique_emails (exec (ADD_EMAIL now d e) st)) ∧
  (∀ d e, unique_emails (exec (DELETE_EMAIL d e) st)) ∧
  (∀ d, unique_emails (exec (DELETE_DOMAIN d) st)) ∧
  (∀ oldDomain newDomain,
     unique_emails (exec (EDIT_DOMAIN oldDomain newDomain) st)) ∧
  (∀ localData strategy, unique_emails (smartMerge localData st strategy)).
Proof.
  intros Hst. split_and!.
  - intros. by apply saveEmailMapping_unique.
  - intros. by apply storeEmailMapping_unique.
  - intros. by apply LOGIN_DETECTED_unique.
  - intros. by apply ADD_EMAIL_unique.
  - intros. by apply DELETE_EMAIL_unique.
  - intros d d' entries Hl. rewrite DELETE_DOMAIN_exec in Hl.
    apply lookup_delete_Some in Hl as [_ Hl]. by eapply Hst.
  - intros oldDomain newDomain d' entries Hl. rewrite EDIT_DOMAIN_exec in Hl.
    destruct (st !! oldDomain) as [old|] eqn:Hold; [|by eapply Hst].
    apply lookup_delete_Some in Hl as [_ Hl].
    apply lookup_insert_Some in Hl as [[_ <-]|[_ Hl]]; by eapply Hst.
  - intros. by apply smartMerge_unique.
Qed.

Lemma unique_emails_kept_witness :
  (∀ now d e url,
     unique_emails (exec (saveEmailMapping now d e url) sample_local)) ∧
  (∀ now d e url,
     unique_emails (exec (storeEmailMapping now d e url) sample_local)) ∧
  (∀ e website ts url,
     unique_emails (exec (LOGIN_DETECTED e website ts url) sample_local)) ∧
  (∀ now d e, unique_emails (exec (ADD_EMAIL now d e) sample_local)) ∧
  (∀ d e, unique_emails (exec (DELETE_EMAIL d e) sample_local)) ∧
  (∀ d, unique_emails (exec (DELETE_DOMAIN d) sample_local)) ∧
  (∀ oldDomain newDomain,
     unique_emails (exec (EDIT_DOMAIN oldDomain newDomain) sample_local)) ∧
  (∀ localData strategy,
     unique_emails (smartMerge localData sample_local strategy)).
Proof.
  apply (unique_emails_kept sample_local).
  intros d entries H. unfold sample_local in H.
  apply lookup_singleton_Some in H as [_ <-].
  apply (bool_decide_unpack _). vm_compute. exact I.
Defined.
